(** * cost-model: cluster registry and custom pricing provider

    A shallow embedding of three Go packages of the cost model:

    - [Clusters]: the Prometheus-backed cluster map (package [clusters]):
      [loadClusters], [refreshClusters] and the read accessors;
    - [Cloud]: the custom pricing provider (package [cloud]):
      [DownloadPricingData], [NodePricing], [UpdateConfig] and the derived
      cost formulas;
    - [Metrics]: the helpers of the Kubernetes metrics (package [metrics]).

    Go strings are byte strings and are embedded as [string]; Go maps are
    [gmap]s; a [*ClusterInfo] is an address into an explicit heap; a
    [float64] is a primitive binary64 float.  The read/write locks are not
    modelled: every operation below is the sequential behaviour of one call
    made while it holds its lock.

    The definitions of the packages come first, then their properties:
    [StringsFacts], [Float64Facts], [ClustersFacts], [CloudFacts] and
    [MetricsFacts]. *)

From Stdlib Require Import Ascii ZArith Floats.
From stdpp Require Import gmap strings list fin_maps.


(** ** The functions of Go's [strings] package that the sources call *)

Module Strings.

(** [strings.Contains(s, sep)] for a separator of one byte. *)
Fixpoint Contains (s : string) (sep : ascii) : bool :=
  match s with
  | EmptyString => false
  | String c s' => if decide (c = sep) then true else Contains s' sep
  end.

(** [strings.Split(s, sep)] for a separator of one byte: every piece between
    two occurrences of [sep]; the empty string gives one empty piece. *)
Fixpoint Split (s : string) (sep : ascii) : list string :=
  match s with
  | EmptyString => [EmptyString]
  | String c s' =>
      if decide (c = sep) then EmptyString :: Split s' sep
      else match Split s' sep with
           | piece :: pieces => String c piece :: pieces
           | [] => [String c EmptyString]
           end
  end.

(** The text of [s] up to its first [sep] (all of [s] when it has none). *)
Fixpoint upTo (s : string) (sep : ascii) : string :=
  match s with
  | EmptyString => EmptyString
  | String c s' => if decide (c = sep) then EmptyString else String c (upTo s' sep)
  end.

(** The text of [s] after its first [sep] (empty when it has none). *)
Fixpoint after (s : string) (sep : ascii) : string :=
  match s with
  | EmptyString => EmptyString
  | String c s' => if decide (c = sep) then s' else after s' sep
  end.

End Strings.

(** Go's [error]: [None] is [nil], [Some msg] an error carrying [msg]. *)
Definition error : Type := option string.

(** ** Package [clusters]: the cluster map *)

Module Clusters.

Definition LoadRetries : nat := 6.

Record ClusterInfo : Type := mkClusterInfo {
  ID : string;
  Name : string;
  Profile : string;
  Provider : string;
  Provisioner : string
}.

(** *** Memory

    The registry holds [*ClusterInfo] pointers, and [Clone] returns a pointer
    to a new record: the heap of [ClusterInfo] cells is explicit.  An address
    is an index into the list of the cells allocated so far, and a pointer is
    [nil] ([None]) or an address.  A computation takes the heap and returns
    its result with the new heap, or [None] when it panics (a nil
    dereference). *)

Abbreviation addr := nat.
Abbreviation ptr := (option addr).
Abbreviation heap := (list ClusterInfo).

Definition M (A : Type) : Type := heap → option (A * heap).

Definition ret {A} (a : A) : M A := λ h, Some (a, h).

Definition bind {A B} (c : M A) (k : A → M B) : M B :=
  λ h, match c h with
       | Some (a, h') => k a h'
       | None => None
       end.

Notation "x <- c ;; k" := (bind c (λ x, k))
  (at level 100, c at next level, right associativity).

(** [&ClusterInfo{...}]: a new cell, at the first unused address. *)
Definition alloc (ci : ClusterInfo) : M ptr :=
  λ h, Some (Some (length h), h ++ [ci]).

(** [*p]: panics on [nil]. *)
Definition load (p : ptr) : M ClusterInfo :=
  λ h, match p with
       | Some a => match h !! a with
                   | Some ci => Some (ci, h)
                   | None => None
                   end
       | None => None
       end.

(** Clone creates a copy of ClusterInfo and returns it *)
Definition Clone (ci : ptr) : M ptr :=
  match ci with
  | None => ret None
  | Some _ =>
      c <- load ci ;;
      alloc {| ID := ID c; Name := Name c; Profile := Profile c;
               Provider := Provider c; Provisioner := Provisioner c |}
  end.

(** *** The collaborators outside the package *)

(** Modelled from the spec: [prom.QueryResult] (package [prom], not among the
    sources): "expected result rows carry string-valued labels id, name, and
    optionally clusterprofile, provider, provisioner". *)
Abbreviation QueryResult := (gmap string string).

(** Modelled from the spec: [QueryResult.GetString] (package [prom], not among
    the sources): the value of a label of the row, and an error for a label
    the row does not carry. *)
Definition GetString (qr : QueryResult) (field : string) : string * error :=
  match qr !! field with
  | Some v => (v, None)
  | None => ("", Some ("'" +:+ field +:+ "' field does not exist in data result vector"))
  end.

(** What a query hands back as [interface{}]: the rows, or a value of
    another dynamic type (the untyped nil included). *)
Inductive iface : Type :=
  | Rows (qr : list QueryResult)
  | Other.

(** The client, as one refresh observes it: whether it is a Thanos client,
    and what the [n]-th execution of a query returns. *)
Record Client : Type := mkClient {
  IsThanos : bool;
  QuerySync : string → nat → iface * error
}.

(** The process environment: [thanos.QueryOffset()] and [env.GetClusterID()]. *)
Record Env : Type := mkEnv {
  QueryOffset : string;
  GetClusterID : string
}.

(** Modelled from the spec: [retry.Retry] (package [util/retry], not among
    the sources): "bounded retry: up to 6 attempts, 10-second fixed delay
    between attempts"; the first attempt without error ends it, and the last
    attempt's error is the final failure.  [f n] is the outcome of the
    attempt numbered [n]; the delay is not modelled. *)
Fixpoint Retry (f : nat → iface * error) (attempts : nat) (n : nat) : iface * error :=
  match attempts with
  | 0 => (Other, None)
  | S r =>
      match f n with
      | (result, None) => (result, None)
      | (result, Some e) =>
          match r with
          | 0 => (result, Some e)
          | S _ => Retry f r (S n)
          end
      end
  end.

(** *** The registry *)

(** [localCluster] is what the local provider's [GetClusterInfo] returns; a
    nil map reads as the empty map.  The stop channel takes no part in the
    operations below and is left out. *)
Record PrometheusClusterMap : Type := mkPrometheusClusterMap {
  client : Client;
  clusters : gmap string ptr;
  localCluster : gmap string string
}.

(** clusterInfoQuery returns the query string to load cluster info *)
Definition clusterInfoQuery (offset : string) : string :=
  "kubecost_cluster_info" +:+ offset.

(** The body of the loop of [loadClusters] over the query results. *)
Definition loadResult (result : QueryResult) (clusters : gmap string ptr)
  : M (gmap string ptr) :=
  match GetString result "id" with
  | (_, Some _) => ret clusters
  | (id, None) =>
      match GetString result "name" with
      | (_, Some _) => ret clusters
      | (name, None) =>
          let profile :=
            match GetString result "clusterprofile" with
            | (_, Some _) => "" | (v, None) => v end in
          let provider :=
            match GetString result "provider" with
            | (_, Some _) => "" | (v, None) => v end in
          let provisioner :=
            match GetString result "provisioner" with
            | (_, Some _) => "" | (v, None) => v end in
          p <- alloc {| ID := id; Name := name; Profile := profile;
                        Provider := provider; Provisioner := provisioner |} ;;
          ret (<[id := p]> clusters)
      end
  end.

Fixpoint loadResults (qr : list QueryResult) (clusters : gmap string ptr)
  : M (gmap string ptr) :=
  match qr with
  | [] => ret clusters
  | result :: qr' =>
      clusters' <- loadResult result clusters ;;
      loadResults qr' clusters'
  end.

(** getLocalClusterInfo returns the local cluster info in the event there
    does not exist a metric available. *)
Definition getLocalClusterInfo (pcm : PrometheusClusterMap) : M (ptr * error) :=
  let info := localCluster pcm in
  match info !! "id" with
  | None => ret (None, Some "Local Cluster Info Missing ID")
  | Some id =>
      match info !! "name" with
      | None => ret (None, Some "Local Cluster Info Missing Name")
      | Some name =>
          let clusterProfile := default "" (info !! "clusterProfile") in
          let provider := default "" (info !! "provider") in
          let provisioner := default "" (info !! "provisioner") in
          p <- alloc {| ID := id; Name := name; Profile := clusterProfile;
                        Provider := provider; Provisioner := provisioner |} ;;
          ret (p, None)
      end
  end.

(** The end of [loadClusters]: populate the local cluster if it doesn't
    exist. *)
Definition populateLocal (e : Env) (pcm : PrometheusClusterMap)
    (clusters : gmap string ptr) : M (gmap string ptr) :=
  let localID := GetClusterID e in
  match clusters !! localID with
  | Some _ => ret clusters
  | None =>
      r <- getLocalClusterInfo pcm ;;
      match r with
      | (_, Some _) => ret clusters
      | (localInfo, None) =>
          ci <- load localInfo ;;
          ret (<[ID ci := localInfo]> clusters)
      end
  end.

(** loadClusters loads all the cluster info to map.  The map returned with
    an error is the nil map, which reads as the empty one. *)
Definition loadClusters (e : Env) (pcm : PrometheusClusterMap)
  : M (gmap string ptr * error) :=
  let offset := if IsThanos (client pcm) then QueryOffset e else "" in
  let tryQuery := QuerySync (client pcm) (clusterInfoQuery offset) in
  match Retry tryQuery LoadRetries 0 with
  | (Rows qr, None) =>
      clusters <- loadResults qr ∅ ;;
      clusters <- populateLocal e pcm clusters ;;
      ret (clusters, None)
  | (_, err) => ret (∅, err)
  end.

(** refreshClusters loads the clusters and updates the internal map *)
Definition refreshClusters (e : Env) (pcm : PrometheusClusterMap)
  : M PrometheusClusterMap :=
  r <- loadClusters e pcm ;;
  match r with
  | (_, Some _) => ret pcm
  | (updated, None) =>
      ret {| client := client pcm; clusters := updated;
             localCluster := localCluster pcm |}
  end.

(** InfoFor returns the ClusterInfo entry for the provided clusterID or nil
    if it doesn't exist *)
Definition InfoFor (pcm : PrometheusClusterMap) (clusterID : string) : M ptr :=
  match clusters pcm !! clusterID with
  | Some info => Clone info
  | None => ret None
  end.

(** NameFor returns the name of the cluster provided the clusterID. *)
Definition NameFor (pcm : PrometheusClusterMap) (clusterID : string) : M string :=
  match clusters pcm !! clusterID with
  | Some info => ci <- load info ;; ret (Name ci)
  | None => ret ""
  end.

(** NameIDFor returns an identifier in the format
    "<clusterName>/<clusterID>" if the cluster has an assigned name.
    Otherwise, just the clusterID is returned. *)
Definition NameIDFor (pcm : PrometheusClusterMap) (clusterID : string) : M string :=
  match clusters pcm !! clusterID with
  | Some info =>
      ci <- load info ;;
      if decide (Name ci = "") then ret clusterID
      else ret (Name ci +:+ "/" +:+ clusterID)
  | None => ret clusterID
  end.

(** SplitNameID splits the nameID back into a separate id and name field.
    The result is [(id, name)]; [None] is the panic of an index out of
    range. *)
Definition SplitNameID (nameID : string) : option (string * string) :=
  if negb (Strings.Contains nameID "/") then Some (nameID, "")
  else
    let split := Strings.Split nameID "/" in
    match split !! 0, split !! 1 with
    | Some name, Some id => Some (id, name)
    | _, _ => None
    end.

(** *** Listing and copying the registry *)

Section Range.

(** The order in which [range] visits the entries of the registry's map:
    the language leaves it open. *)
Variable rangeOrder : gmap string ptr → list (string * ptr).

(** GetClusterIDs returns a slice containing all of the cluster
    identifiers. *)
Definition GetClusterIDs (pcm : PrometheusClusterMap) : list string :=
  (rangeOrder (clusters pcm)).*1.

(** The loop of [AsMap] over the entries still to visit. *)
Fixpoint cloneEntries (entries : list (string * ptr)) (m : gmap string ptr)
  : M (gmap string ptr) :=
  match entries with
  | [] => ret m
  | (k, v) :: entries' =>
      p <- Clone v ;;
      cloneEntries entries' (<[k := p]> m)
  end.

(** AsMap returns the cluster map as a standard go map *)
Definition AsMap (pcm : PrometheusClusterMap) : M (gmap string ptr) :=
  cloneEntries (rangeOrder (clusters pcm)) ∅.

End Range.

(** *** Stopping the refresh

    [StopRefresh] reads and writes the [stop] field alone, which the record
    above leaves out: it is modelled on that field.  A channel is a number,
    and the channels closed so far are a set; closing a closed channel
    panics ([None]). *)

Abbreviation chan := nat.

Definition close (c : chan) (closed : gset chan) : option (gset chan) :=
  if decide (c ∈ closed) then None else Some ({[c]} ∪ closed).

(** StopRefresh stops the automatic internal map refresh: the [stop] field
    and the closed channels after the call. *)
Definition StopRefresh (stop : option chan) (closed : gset chan)
  : option (option chan * gset chan) :=
  match stop with
  | Some c =>
      match close c closed with
      | Some closed' => Some (None, closed')
      | None => None
      end
  | None => Some (None, closed)
  end.

(** *** The life of a registry

    [NewClusterMap] makes a registry with an empty map and starts the task
    that refreshes it at once and then at every tick.  The task is modelled
    by the refreshes it runs, one after the other; each comes with the
    process environment and the behaviour of the client and of the local
    provider at that time.  The stop channel and the timing are left out. *)

Definition NewClusterMap (client : Client) (lcip : gmap string string)
  : PrometheusClusterMap :=
  {| client := client; clusters := ∅; localCluster := lcip |}.

Fixpoint refreshLoop (ticks : list (Env * Client * gmap string string))
    (pcm : PrometheusClusterMap) : M PrometheusClusterMap :=
  match ticks with
  | [] => ret pcm
  | (e, client, lcip) :: ticks' =>
      pcm' <- refreshClusters e {| client := client; clusters := clusters pcm;
                                   localCluster := lcip |} ;;
      refreshLoop ticks' pcm'
  end.

End Clusters.

(** ** Package [cloud]: the custom pricing provider *)

Module Cloud.

(** A Go result pair [(T, error)] of which one side is set. *)
Inductive result (A : Type) : Type :=
  | Ok (a : A)
  | Error (msg : string).
Arguments Ok {A} a.
Arguments Error {A} msg.

Module NodePrice.
Record t : Type := mk { CPU : string; RAM : string; GPU : string }.
End NodePrice.

Module Node.
(** Modelled from the spec: the [Node] record (declared in package [cloud],
    not among the sources), with the four fields [NodePricing] sets. *)
Record t : Type := mk {
  VCPUCost : string; RAMCost : string; GPUCost : string; GPU : string
}.
End Node.

(** Modelled from the spec: the [LoadBalancer] record (declared in package
    [cloud], not among the sources), with the field [LoadBalancerPricing]
    sets. *)
Record LoadBalancer : Type := mkLoadBalancer { Cost : float }.

Module CustomPricing.
(** Modelled from the spec: the [CustomPricing] record (declared in package
    [cloud], not among the sources): "the cloud's rate card fields (CPU, RAM,
    GPU, SpotCPU, SpotRAM, network/egress rates, load-balancer rates,
    storage rate, spot/GPU label identifiers)", under the names
    customprovider.go reads them by. *)
Record t : Type := mk {
  ClusterName : string;
  CPU : string;
  SpotCPU : string;
  RAM : string;
  SpotRAM : string;
  GPU : string;
  Storage : string;
  ZoneNetworkEgress : string;
  RegionNetworkEgress : string;
  InternetNetworkEgress : string;
  FirstFiveForwardingRulesCost : string;
  AdditionalForwardingRuleCost : string;
  LBIngressDataCost : string;
  SpotLabel : string;
  SpotLabelValue : string;
  GpuLabel : string;
  GpuLabelValue : string
}.
End CustomPricing.

(** Modelled from the spec: [ProviderConfig] (declared in package [cloud], not
    among the sources), "a shared, externally-owned configuration object
    (GetCustomPricingData) that exposes the cloud's rate card fields".
    [customPricing] is the configuration in force; [None] stands for a
    configuration that cannot be loaded. *)
Record ProviderConfig : Type := mkProviderConfig {
  customPricing : option CustomPricing.t
}.

(** Modelled from the spec: [ProviderConfig.GetCustomPricingData], which
    "fetches the current configuration", or fails. *)
Definition GetCustomPricingData (pc : ProviderConfig) : result CustomPricing.t :=
  match customPricing pc with
  | Some c => Ok c
  | None => Error "custom pricing configuration unavailable"
  end.

(** Modelled from the spec: [ProviderConfig.Update] (declared in package
    [cloud], not among the sources), through which an update is made by
    "performing a named-field assignment against the configuration".
    [updateFunc] is the Go closure: it is handed a pointer to the
    configuration record, assigns to the fields of that record and returns
    an error.  Here it returns the record as it left it with the error; the
    assignments are made against the configuration, so that record is the
    configuration after the call, and the error of the closure is the error
    of the update. *)
Definition Update (pc : ProviderConfig)
    (updateFunc : CustomPricing.t → CustomPricing.t * error)
  : ProviderConfig * result CustomPricing.t :=
  match customPricing pc with
  | None => (pc, Error "custom pricing configuration unavailable")
  | Some c =>
      match updateFunc c with
      | (c', Some e) => ({| customPricing := Some c' |}, Error e)
      | (c', None) => ({| customPricing := Some c' |}, Ok c')
      end
  end.

Module CustomProvider.
(** [Pricing] is [None] for the nil map.  The [*NodePrice] values are
    stored by value: the provider only ever stores pointers to records it
    has just made, and reads their fields.  [Clientset] and the lock take no
    part in the operations below and are left out. *)
Record t : Type := mk {
  Pricing : option (gmap string NodePrice.t);
  SpotLabel : string;
  SpotLabelValue : string;
  GPULabel : string;
  GPULabelValue : string;
  Config : ProviderConfig
}.
End CustomProvider.

Module customProviderKey.
Record t : Type := mk {
  SpotLabel : string;
  SpotLabelValue : string;
  GPULabel : string;
  GPULabelValue : string;
  Labels : gmap string string
}.
End customProviderKey.

(** The [Key] interface of the providers. *)
Class Key (K : Type) : Type := {
  ID : K → string;
  Features : K → string;
  GPUType : K → string
}.

(** Reading a [map[string]string]: the zero value for a missing key. *)
Definition label (labels : gmap string string) (name : string) : string :=
  default "" (labels !! name).

#[export] Instance customProviderKey_Key : Key customProviderKey.t := {|
  ID := λ _, "";
  Features := λ cpk,
    if decide (label (customProviderKey.Labels cpk) (customProviderKey.SpotLabel cpk) ≠ ""
               ∧ label (customProviderKey.Labels cpk) (customProviderKey.SpotLabel cpk)
                 = customProviderKey.SpotLabelValue cpk)
    then "default,spot"
    else "default";
  GPUType := λ cpk,
    match customProviderKey.Labels cpk !! customProviderKey.GPULabel cpk with
    | Some t => t
    | None => ""
    end
|}.

Definition GetKey (cp : CustomProvider.t) (labels : gmap string string)
  : customProviderKey.t :=
  {| customProviderKey.SpotLabel := CustomProvider.SpotLabel cp;
     customProviderKey.SpotLabelValue := CustomProvider.SpotLabelValue cp;
     customProviderKey.GPULabel := CustomProvider.GPULabel cp;
     customProviderKey.GPULabelValue := CustomProvider.GPULabelValue cp;
     customProviderKey.Labels := labels |}.

(** [cp.Pricing[k]]: the pointer stored under [k], nil ([None]) when the key
    is missing or the map is nil. *)
Definition price (cp : CustomProvider.t) (k : string) : option NodePrice.t :=
  CustomProvider.Pricing cp ≫= (.!! k).

(** The tag [k] and the [gpuCount] that [NodePricing] settles on. *)
Definition nodeTag {K} `{Key K} (cp : CustomProvider.t) (key : K)
  : string * string :=
  let k := Features key in
  let k := if decide (is_Some (price cp k)) then k else "default" in
  if decide (GPUType key ≠ "") then (k +:+ ",gpu", "1") else (k, "").

(** [NodePricing]; [None] is the panic of reading a field through the nil
    pointer that a missing key gives. *)
Definition NodePricing {K} `{Key K} (cp : CustomProvider.t) (key : K)
  : option (Node.t * error) :=
  let '(k, gpuCount) := nodeTag cp key in
  match price cp k with
  | None => None
  | Some p =>
      Some ({| Node.VCPUCost := NodePrice.CPU p;
               Node.RAMCost := NodePrice.RAM p;
               Node.GPUCost := NodePrice.GPU p;
               Node.GPU := gpuCount |}, None)
  end.

(** [DownloadPricingData]: the provider after the call, and the error. *)
Definition DownloadPricingData (cp : CustomProvider.t) : CustomProvider.t * error :=
  let m := match CustomProvider.Pricing cp with
           | None => ∅
           | Some m => m
           end in
  match GetCustomPricingData (CustomProvider.Config cp) with
  | Error e =>
      ({| CustomProvider.Pricing := Some m;
          CustomProvider.SpotLabel := CustomProvider.SpotLabel cp;
          CustomProvider.SpotLabelValue := CustomProvider.SpotLabelValue cp;
          CustomProvider.GPULabel := CustomProvider.GPULabel cp;
          CustomProvider.GPULabelValue := CustomProvider.GPULabelValue cp;
          CustomProvider.Config := CustomProvider.Config cp |}, Some e)
  | Ok p =>
      let m := <["default" := {| NodePrice.CPU := CustomPricing.CPU p;
                                 NodePrice.RAM := CustomPricing.RAM p;
                                 NodePrice.GPU := "" |}]> m in
      let m := <["default,spot" := {| NodePrice.CPU := CustomPricing.SpotCPU p;
                                      NodePrice.RAM := CustomPricing.SpotRAM p;
                                      NodePrice.GPU := "" |}]> m in
      let m := <["default,gpu" := {| NodePrice.CPU := CustomPricing.CPU p;
                                     NodePrice.RAM := CustomPricing.RAM p;
                                     NodePrice.GPU := CustomPricing.GPU p |}]> m in
      ({| CustomProvider.Pricing := Some m;
          CustomProvider.SpotLabel := CustomPricing.SpotLabel p;
          CustomProvider.SpotLabelValue := CustomPricing.SpotLabelValue p;
          CustomProvider.GPULabel := CustomPricing.GpuLabel p;
          CustomProvider.GPULabelValue := CustomPricing.GpuLabelValue p;
          CustomProvider.Config := CustomProvider.Config cp |}, None)
  end.

(** *** Updating the configuration *)

#[local] Unset Elimination Schemes.

(** A decoded JSON value, as [interface{}]. *)
Inductive jvalue : Type :=
  | JString (s : string)
  | JNumber (f : float)
  | JBool (b : bool)
  | JNull
  | JArray (items : list jvalue)
  | JObject (fields : list (string * jvalue)).

#[local] Set Elimination Schemes.

Section UpdateConfig.

(** [strings.Title] of Go's standard library, which puts the first letter of
    every word in upper case. *)
Variable Title : string → string.

(** [SetCustomPricingField] (declared in package [cloud], not among the
    sources) assigns the named field of the record it is handed and returns
    an error: here it returns the record after the call with the error. *)
Variable SetCustomPricingField :
  CustomPricing.t → string → string → CustomPricing.t * error.

(** The order in which [range] visits the entries of a map: the language
    leaves it open. *)
Variable rangeOrder : gmap string jvalue → list (string * jvalue).

(** The loop of the closure handed to [Config.Update], over the entries
    still to visit. *)
Fixpoint applyEntries (entries : list (string * jvalue)) (c : CustomPricing.t)
  : CustomPricing.t * error :=
  match entries with
  | [] => (c, None)
  | (k, v) :: entries' =>
      let kUpper := Title k in
      match v with
      | JString vstr =>
          match SetCustomPricingField c kUpper vstr with
          | (c', Some e) => (c', Some e)
          | (c', None) => applyEntries entries' c'
          end
      | _ => (c, Some ("type error while updating config for " +:+ kUpper))
      end
  end.

(** [UpdateConfig], from the outcome of decoding the reader [r]: the
    provider after the call, and the pair returned.  The deferred
    [DownloadPricingData] runs when the function returns successfully, and
    its error is dropped. *)
Definition UpdateConfig (cp : CustomProvider.t)
    (r : result (gmap string jvalue)) (updateType : string)
  : CustomProvider.t * result CustomPricing.t :=
  match r with
  | Error e => (cp, Error e)
  | Ok a =>
      let '(config, res) :=
        Update (CustomProvider.Config cp) (applyEntries (rangeOrder a)) in
      let cp :=
        {| CustomProvider.Pricing := CustomProvider.Pricing cp;
           CustomProvider.SpotLabel := CustomProvider.SpotLabel cp;
           CustomProvider.SpotLabelValue := CustomProvider.SpotLabelValue cp;
           CustomProvider.GPULabel := CustomProvider.GPULabel cp;
           CustomProvider.GPULabelValue := CustomProvider.GPULabelValue cp;
           CustomProvider.Config := config |} in
      match res with
      | Error e => (cp, Error e)
      | Ok c => ((DownloadPricingData cp).1, Ok c)
      end
  end.

End UpdateConfig.

(** *** Derived costs *)

Section Costs.

(** [strconv.ParseFloat(s, 64)]: the value and the error. *)
Variable ParseFloat : string → float * error.

(** The [if] of [LoadBalancerPricing], over its local variables. *)
Definition totalCost (fffrc afrc lbidc numForwardingRules dataIngressGB : float)
  : float :=
  if (numForwardingRules <? 5)%float
  then (fffrc * numForwardingRules + lbidc * dataIngressGB)%float
  else (fffrc * 5 + afrc * (numForwardingRules - 5) + lbidc * dataIngressGB)%float.

Definition LoadBalancerPricing (cp : CustomProvider.t) : result LoadBalancer :=
  match GetCustomPricingData (CustomProvider.Config cp) with
  | Error e => Error e
  | Ok cpricing =>
      match ParseFloat (CustomPricing.FirstFiveForwardingRulesCost cpricing) with
      | (_, Some e) => Error e
      | (fffrc, None) =>
          match ParseFloat (CustomPricing.AdditionalForwardingRuleCost cpricing) with
          | (_, Some e) => Error e
          | (afrc, None) =>
              match ParseFloat (CustomPricing.LBIngressDataCost cpricing) with
              | (_, Some e) => Error e
              | (lbidc, None) =>
                  let numForwardingRules := 1%float in
                  let dataIngressGB := 0%float in
                  Ok {| Cost := totalCost fffrc afrc lbidc
                                  numForwardingRules dataIngressGB |}
              end
          end
      end
  end.

End Costs.

Definition CombinedDiscountForNode (instanceType : string) (isPreemptible : bool)
    (defaultDiscount negotiatedDiscount : float) : float :=
  (1 - ((1 - defaultDiscount) * (1 - negotiatedDiscount)))%float.

(** *** The other answers of the provider *)

(** Modelled from the spec: the [Network] record (declared in package [cloud],
    not among the sources), with the three fields [NetworkPricing] sets. *)
Record Network : Type := mkNetwork {
  ZoneNetworkEgressCost : float;
  RegionNetworkEgressCost : float;
  InternetNetworkEgressCost : float
}.

Definition GetConfig (cp : CustomProvider.t) : result CustomPricing.t :=
  GetCustomPricingData (CustomProvider.Config cp).

(** [ClusterInfo]; [clusterID] is what [env.GetClusterID()] returns. *)
Definition ClusterInfo (clusterID : string) (cp : CustomProvider.t)
  : result (gmap string string) :=
  match GetConfig cp with
  | Error e => Error e
  | Ok conf =>
      let m : gmap string string := ∅ in
      let m := if decide (CustomPricing.ClusterName conf ≠ "")
               then <["name" := CustomPricing.ClusterName conf]> m else m in
      let m := <["provider" := "custom"]> m in
      let m := <["id" := clusterID]> m in
      Ok m
  end.

Section Network.

(** [strconv.ParseFloat(s, 64)]: the value and the error. *)
Variable ParseFloat : string → float * error.

Definition NetworkPricing (cp : CustomProvider.t) : result Network :=
  match GetCustomPricingData (CustomProvider.Config cp) with
  | Error e => Error e
  | Ok cpricing =>
      match ParseFloat (CustomPricing.ZoneNetworkEgress cpricing) with
      | (_, Some e) => Error e
      | (znec, None) =>
          match ParseFloat (CustomPricing.RegionNetworkEgress cpricing) with
          | (_, Some e) => Error e
          | (rnec, None) =>
              match ParseFloat (CustomPricing.InternetNetworkEgress cpricing) with
              | (_, Some e) => Error e
              | (inec, None) =>
                  Ok {| ZoneNetworkEgressCost := znec;
                        RegionNetworkEgressCost := rnec;
                        InternetNetworkEgressCost := inec |}
              end
          end
      end
  end.

End Network.

End Cloud.

(** ** Package [metrics]: the helpers of the Kubernetes metrics *)

Module Metrics.

(** [strings.HasPrefix(s, prefix)]. *)
Definition HasPrefix (s pre : string) : bool := String.prefix pre s.

(** [strings.Contains(s, substr)] for a substring of any length. *)
Fixpoint ContainsString (s substr : string) : bool :=
  match s with
  | EmptyString => String.prefix substr EmptyString
  | String _ s' => String.prefix substr s || ContainsString s' substr
  end.

(** [float64(n)] of an [int64]: the integer rounded to the nearest binary64
    number. *)
Definition float64_of_int64 (n : Z) : float :=
  SF2Prim (binary_normalize prec emax n 0 false).

(** A [resource.Quantity] (package [k8s.io/apimachinery], outside the
    repository), by what its methods [MilliValue] and [Value] return. *)
Record Quantity : Type := mkQuantity { MilliValue : Z; Value : Z }.

(** A [v1.PersistentVolumeClaim] (package [k8s.io/api], outside the
    repository), by the two fields read here: the annotations and
    [Spec.StorageClassName], a [*string]. *)
Record PersistentVolumeClaim : Type := mkPersistentVolumeClaim {
  Annotations : gmap string string;
  StorageClassName : option string
}.

Section K8s.

(** The constants of [k8s.io/api/core/v1] that the helpers name. *)
Variables ResourceCPU ResourceStorage ResourceEphemeralStorage : string.
Variables ResourceMemory ResourcePods : string.
Variables ResourceHugePagesPrefix ResourceAttachableVolumesPrefix : string.
Variables DefaultResourceRequestsPrefix ResourceDefaultNamespacePrefix : string.
Variable BetaStorageClassAnnotation : string.

(** [validation.IsQualifiedName] of [k8s.io/apimachinery]: the list of the
    errors found. *)
Variable IsQualifiedName : string → list string.

(** [prom.SanitizeLabelName] (package [prom], not among the sources). *)
Variable SanitizeLabelName : string → string.

(** getPersistentVolumeClaimClass returns StorageClassName. If no storage
    class was requested, it returns "". *)
Definition getPersistentVolumeClaimClass (claim : PersistentVolumeClaim) : string :=
  match Annotations claim !! BetaStorageClassAnnotation with
  | Some class => class
  | None =>
      match StorageClassName claim with
      | Some class => class
      | None => "<none>"
      end
  end.

(** isHugePageResourceName checks for a huge page container resource name *)
Definition isHugePageResourceName (name : string) : bool :=
  HasPrefix name ResourceHugePagesPrefix.

(** isAttachableVolumeResourceName checks for attached volume container
    resource name *)
Definition isAttachableVolumeResourceName (name : string) : bool :=
  HasPrefix name ResourceAttachableVolumesPrefix.

Definition isPrefixedNativeResource (name : string) : bool :=
  ContainsString name ResourceDefaultNamespacePrefix.

(** isNativeResource checks for a kubernetes.io/ prefixed resource name *)
Definition isNativeResource (name : string) : bool :=
  negb (Strings.Contains name "/") || isPrefixedNativeResource name.

(** isExtendedResourceName checks for extended container resource name *)
Definition isExtendedResourceName (name : string) : bool :=
  if isNativeResource name || HasPrefix name DefaultResourceRequestsPrefix
  then false
  else
    let nameForQuota := DefaultResourceRequestsPrefix +:+ name in
    match IsQualifiedName nameForQuota with
    | [] => true
    | _ :: _ => false
    end.

(** toResourceUnitValue accepts a resource name and quantity and returns the
    sanitized resource, the unit, and the value in the units.  Returns an
    empty string for resource and unit if there was a failure. *)
Definition toResourceUnitValue (resourceName : string) (quantity : Quantity)
  : string * string * float :=
  let resource := SanitizeLabelName resourceName in
  if decide (resourceName = ResourceCPU) then
    (resource, "core", (float64_of_int64 (MilliValue quantity) / 1000)%float)
  else if decide (resourceName = ResourceStorage
                  ∨ resourceName = ResourceEphemeralStorage
                  ∨ resourceName = ResourceMemory) then
    (resource, "byte", float64_of_int64 (Value quantity))
  else if decide (resourceName = ResourcePods) then
    (resource, "integer", float64_of_int64 (Value quantity))
  else if isHugePageResourceName resourceName
          || isAttachableVolumeResourceName resourceName then
    (resource, "byte", float64_of_int64 (Value quantity))
  else if isExtendedResourceName resourceName then
    (resource, "integer", float64_of_int64 (Value quantity))
  else ("", "", 0%float).

End K8s.

(** boolFloat64 converts a boolean input into a 1 or 0 *)
Definition boolFloat64 (b : bool) : float := if b then 1%float else 0%float.

End Metrics.

(** * Properties

    ** Splitting strings *)

Module StringsFacts.
Import Strings.

Lemma Split_nonempty s sep : Split s sep ≠ [].
Proof.
  induction s as [|c s IH]; simpl; [done|].
  case_decide; [done|]. by destruct (Split s sep).
Qed.

Lemma Split_cons s sep : Split s sep = upTo s sep :: tail (Split s sep).
Proof.
  induction s as [|c s IH]; simpl; [done|].
  case_decide; [done|].
  rewrite IH. done.
Qed.

Lemma Split_without s sep : Contains s sep = false → Split s sep = [s].
Proof.
  induction s as [|c s IH]; simpl; [done|].
  case_decide; [done|]. intros Hs. by rewrite (IH Hs).
Qed.

Lemma Split_with s sep :
  Contains s sep = true → Split s sep = upTo s sep :: Split (after s sep) sep.
Proof.
  induction s as [|c s IH]; simpl; [done|].
  case_decide; [done|]. intros Hs. by rewrite (IH Hs).
Qed.

Lemma upTo_without s sep : Contains s sep = false → upTo s sep = s.
Proof.
  induction s as [|c s IH]; simpl; [done|].
  case_decide; [done|]. intros Hs. by rewrite (IH Hs).
Qed.

Lemma Contains_upTo s sep : Contains (upTo s sep) sep = false.
Proof.
  induction s as [|c s IH]; simpl; [done|].
  case_decide; [done|]. simpl. by case_decide.
Qed.

(** A string with a separator is its text before the first one, the
    separator, and its text after it. *)
Lemma cut_first s sep :
  Contains s sep = true → s = upTo s sep +:+ String sep (after s sep).
Proof.
  induction s as [|c s IH]; simpl; [done|].
  case_decide as Hc; [by subst|]. intros Hs. exact (f_equal (String c) (IH Hs)).
Qed.

Lemma Contains_app s t sep :
  Contains (s +:+ t) sep = Contains s sep || Contains t sep.
Proof.
  induction s as [|c s IH]; simpl; [done|]. by case_decide.
Qed.

Lemma upTo_app_sep s t sep :
  Contains s sep = false → upTo (s +:+ String sep t) sep = s.
Proof.
  induction s as [|c s IH]; simpl.
  - by rewrite decide_True.
  - case_decide; [done|]. intros Hs. by rewrite (IH Hs).
Qed.

Lemma after_app_sep s t sep :
  Contains s sep = false → after (s +:+ String sep t) sep = t.
Proof.
  induction s as [|c s IH]; simpl.
  - by rewrite decide_True.
  - case_decide; [done|]. intros Hs. by rewrite (IH Hs).
Qed.

End StringsFacts.

(** ** float64 arithmetic

    The facts about binary64 multiplication by one and by zero, and addition
    of a zero, that the load-balancer cost needs; they are read off the
    specification of the primitive operations. *)

Module Float64Facts.

(** Equal as float64 numbers: the same value, or two zeros (of either
    sign). *)
Definition same_number (x y : float) : Prop :=
  x = y ∨ (is_zero x = true ∧ is_zero y = true).

Lemma one_SF : Prim2SF 1%float = S754_finite false 4503599627370496 (-52).
Proof. vm_compute. reflexivity. Qed.

Lemma zero_SF : Prim2SF 0%float = S754_zero false.
Proof. vm_compute. reflexivity. Qed.

Lemma infinity_SF : Prim2SF infinity = S754_infinity false.
Proof. vm_compute. reflexivity. Qed.

Lemma nan_SF : Prim2SF nan = S754_nan.
Proof. vm_compute. reflexivity. Qed.

Lemma mul_pow52 (m : positive) :
  (m * 4503599627370496)%positive = Pos.iter xO m 52.
Proof. rewrite Pos.mul_comm. reflexivity. Qed.

Lemma digits2_iter_xO (n m : positive) :
  Zpos (digits2_pos (Pos.iter xO m n)) = (Zpos (digits2_pos m) + Zpos n)%Z.
Proof.
  induction n as [|n IH] using Pos.peano_ind.
  - simpl. lia.
  - rewrite Pos.iter_succ. simpl digits2_pos. lia.
Qed.

Lemma shr_52 (m : positive) :
  SpecFloat.iter_pos shr_1 52 (shr_record_of_loc (Zpos (Pos.iter xO m 52)) loc_Exact)
  = Build_shr_record (Zpos m) false false.
Proof. vm_compute. reflexivity. Qed.

(** Rounding the exact product of a binary64 mantissa by 2^52, at the
    exponent lowered by 52, gives the number back. *)
Lemma round_mul_one (s : bool) (m : positive) (e : Z) :
  bounded prec emax m e = true →
  binary_round_aux prec emax s (Zpos (m * 4503599627370496)) (e + -52) loc_Exact
  = S754_finite s m e.
Proof.
  intros Hb. unfold bounded, canonical_mantissa in Hb.
  apply andb_prop in Hb as [Hc He]. apply Z.eqb_eq in Hc.
  rewrite mul_pow52.
  unfold binary_round_aux, shr_fexp, Zdigits2.
  rewrite digits2_iter_xO.
  replace (Z.pos (digits2_pos m) + 52 + (e + -52))%Z
    with (Z.pos (digits2_pos m) + e)%Z by lia.
  rewrite Hc. replace (e - (e + -52))%Z with 52%Z by lia.
  unfold shr at 1. rewrite shr_52.
  cbn [shr_m shr_r shr_s loc_of_shr_record round_nearest_even].
  replace (e + -52 + 52)%Z with e by lia.
  rewrite Hc, Z.sub_diag. cbn [shr shr_m].
  by rewrite He.
Qed.

Lemma mul_one (x : float) : (x * 1)%float = x.
Proof.
  apply Prim2SF_inj. rewrite mul_spec, one_SF.
  pose proof (Prim2SF_valid x) as Hv.
  destruct (Prim2SF x) as [s|s| |s m e]; [by destruct s|by destruct s|done|].
  unfold SF64mul, SFmul. rewrite xorb_false_r. by apply round_mul_one.
Qed.

Lemma SFeqb_refl_finite (s : bool) (m : positive) (e : Z) :
  SFeqb (S754_finite s m e) (S754_finite s m e) = true.
Proof.
  unfold SFeqb, SFcompare.
  rewrite Z.compare_refl, Pos.compare_cont_spec, Pos.compare_refl.
  by destruct s.
Qed.

(** A finite float is a zero or a number with a mantissa. *)
Lemma is_finite_SF (x : float) :
  is_finite x = true ↔
  match Prim2SF x with
  | S754_zero _ | S754_finite _ _ _ => True
  | _ => False
  end.
Proof.
  unfold is_finite, is_nan, is_infinity.
  rewrite !FloatAxioms.eqb_spec, abs_spec, infinity_SF.
  destruct (Prim2SF x) as [s|s| |s m e]; simpl; try done.
  - by destruct s.
  - rewrite SFeqb_refl_finite. simpl. done.
Qed.

Lemma is_zero_SF (x : float) (s : bool) :
  Prim2SF x = S754_zero s → is_zero x = true.
Proof. intros Hx. unfold is_zero. by rewrite FloatAxioms.eqb_spec, Hx. Qed.

(** A finite float times zero is a zero. *)
Lemma mul_zero_finite (y : float) :
  is_finite y = true → ∃ s, Prim2SF (y * 0)%float = S754_zero s.
Proof.
  rewrite is_finite_SF, mul_spec, zero_SF.
  destruct (Prim2SF y) as [s|s| |s m e]; try done; intros _; by eexists.
Qed.

(** An infinity or a NaN times zero is a NaN. *)
Lemma mul_zero_not_finite (y : float) :
  is_finite y = false → (y * 0)%float = nan.
Proof.
  intros Hy. apply Prim2SF_inj. rewrite mul_spec, zero_SF, nan_SF.
  destruct (Prim2SF y) as [s|s| |s m e] eqn:Hsf; try done.
  - assert (is_finite y = true) as Hfin by (apply is_finite_SF; by rewrite Hsf).
    congruence.
  - assert (is_finite y = true) as Hfin by (apply is_finite_SF; by rewrite Hsf).
    congruence.
Qed.

Lemma add_nan (x : float) : (x + nan)%float = nan.
Proof.
  apply Prim2SF_inj. rewrite add_spec, nan_SF.
  by destruct (Prim2SF x) as [s|s| |s m e].
Qed.

(** Adding a zero leaves the number, but for the sign of a zero. *)
Lemma add_zero (x z : float) (s : bool) :
  Prim2SF z = S754_zero s → same_number (x + z)%float x.
Proof.
  intros Hz. destruct (Prim2SF x) as [sx|sx| |sx m e] eqn:Hx.
  - right. split; [|by apply (is_zero_SF _ sx)].
    assert (∃ s', Prim2SF (x + z)%float = S754_zero s') as [s' Hs'].
    { rewrite add_spec, Hx, Hz. destruct sx, s; by eexists. }
    by apply (is_zero_SF _ s').
  - left. apply Prim2SF_inj. by rewrite add_spec, Hx, Hz.
  - left. apply Prim2SF_inj. by rewrite add_spec, Hx, Hz.
  - left. apply Prim2SF_inj. by rewrite add_spec, Hx, Hz.
Qed.

Lemma same_number_trans (x y z : float) :
  same_number x y → same_number y z → same_number x z.
Proof.
  intros [->|[Hx Hy]] [->|[Hy' Hz]]; try (by left); by right.
Qed.

End Float64Facts.

(** ** The cluster map *)

Module ClustersFacts.
Import Strings StringsFacts Clusters.

(** *** Running a computation *)

Lemma bind_Some {A B} (c : M A) (k : A → M B) h a h' :
  c h = Some (a, h') → (x <- c ;; k x) h = k a h'.
Proof. unfold bind. by intros ->. Qed.

Lemma load_Some (a : addr) (ci : ClusterInfo) (h : heap) :
  h !! a = Some ci → load (Some a) h = Some (ci, h).
Proof. unfold load. by intros ->. Qed.

Lemma Clone_copies (a : addr) (ci : ClusterInfo) (h : heap) :
  h !! a = Some ci → Clone (Some a) h = Some (Some (length h), h ++ [ci]).
Proof.
  intros Ha. unfold Clone. rewrite (bind_Some _ _ _ _ _ (load_Some _ _ _ Ha)).
  by destruct ci.
Qed.

(** *** Name identifiers *)

Lemma SplitNameID_bare (nameID : string) :
  Contains nameID "/" = false → SplitNameID nameID = Some (nameID, "").
Proof. unfold SplitNameID. by intros ->. Qed.

Lemma SplitNameID_cut (name rest : string) :
  Contains name "/" = false →
  SplitNameID (name +:+ String "/" rest) = Some (upTo rest "/", name).
Proof.
  intros Hname. unfold SplitNameID.
  assert (Contains (name +:+ String "/" rest) "/" = true) as Hc.
  { rewrite Contains_app. simpl. by rewrite orb_true_r. }
  rewrite Hc. simpl negb. cbv iota.
  rewrite (Split_with _ _ Hc), upTo_app_sep, after_app_sep by done.
  by rewrite (Split_cons rest).
Qed.

(** The reading of C2's second half: with a '/', the name is the text before
    the first '/' and the id all the text after it. *)
Definition splits_on_first_slash (nameID : string) : Prop :=
  Contains nameID "/" = true →
  SplitNameID nameID = Some (after nameID "/", upTo nameID "/").

(** Of "a/b/c" the id returned is "b", not the text "b/c" after the first
    '/'. *)
Lemma SplitNameID_drops_later_segments : ¬ splits_on_first_slash "a/b/c".
Proof. intros H. specialize (H eq_refl). vm_compute in H. discriminate H. Qed.

(** What [SplitNameID] computes: without a '/', the whole string as the id,
    with the empty name.  Otherwise the name is the text before the first
    '/', and the id is the text between the first '/' and the next one, or
    the end of the string: all the text after the first '/' exactly when
    that text has no '/' of its own. *)
Lemma SplitNameID_segments (nameID : string) :
  (Contains nameID "/" = false → SplitNameID nameID = Some (nameID, ""))
  ∧ (Contains nameID "/" = true →
     nameID = upTo nameID "/" +:+ String "/" (after nameID "/")
     ∧ SplitNameID nameID = Some (upTo (after nameID "/") "/", upTo nameID "/"))
  ∧ (∀ name rest : string,
       nameID = name +:+ String "/" rest →
       Contains name "/" = false →
       SplitNameID nameID = Some (upTo rest "/", name)
       ∧ (Contains rest "/" = false → SplitNameID nameID = Some (rest, name))
       ∧ (Contains rest "/" = true → SplitNameID nameID ≠ Some (rest, name))).
Proof.
  split; [apply SplitNameID_bare|]. split.
  - intros Hc. split; [by apply cut_first|].
    rewrite (cut_first _ _ Hc) at 1.
    apply SplitNameID_cut, Contains_upTo.
  - intros name rest -> Hname. rewrite (SplitNameID_cut _ _ Hname).
    split; [done|]. split.
    + intros Hrest. by rewrite upTo_without.
    + intros Hrest Heq. injection Heq as Heq.
      pose proof (Contains_upTo rest "/") as Hu. rewrite Heq in Hu. congruence.
Qed.

Example SplitNameID_two_parts : SplitNameID "prod/c-1" = Some ("c-1", "prod").
Proof. reflexivity. Qed.

Example SplitNameID_no_name : SplitNameID "c-1" = Some ("c-1", "").
Proof. reflexivity. Qed.

(** C8: for a cluster id absent from the snapshot, [NameFor] returns the
    empty string and [NameIDFor] returns the id as given; neither panics,
    touches the heap or has an error to return. *)
Theorem unknown_cluster_names (pcm : PrometheusClusterMap) (clusterID : string)
    (h : heap) :
  clusters pcm !! clusterID = None →
  NameFor pcm clusterID h = Some ("", h)
  ∧ NameIDFor pcm clusterID h = Some (clusterID, h).
Proof. intros Habs. unfold NameFor, NameIDFor. by rewrite Habs. Qed.

Definition downClient : Client :=
  {| IsThanos := false; QuerySync := λ _ _, (Other, Some "connection refused") |}.

Definition oneCluster : PrometheusClusterMap :=
  {| client := downClient; clusters := {[ "c-1" := Some 0 ]}; localCluster := ∅ |}.

Definition oneCell : heap :=
  [ {| ID := "c-1"; Name := "prod"; Profile := "production";
       Provider := "GCP"; Provisioner := "GKE" |} ].

Lemma unknown_cluster_names_witness :
  clusters oneCluster !! "c-2" = None
  ∧ NameFor oneCluster "c-2" oneCell = Some ("", oneCell)
  ∧ NameIDFor oneCluster "c-2" oneCell = Some ("c-2", oneCell).
Proof.
  split; [reflexivity|].
  apply (unknown_cluster_names oneCluster "c-2" oneCell). reflexivity.
Defined.

Lemma NameIDFor_known (pcm : PrometheusClusterMap) (clusterID : string)
    (h : heap) (a : addr) (ci : ClusterInfo) :
  clusters pcm !! clusterID = Some (Some a) →
  h !! a = Some ci →
  NameIDFor pcm clusterID h
  = Some (if decide (Name ci = "") then clusterID
          else Name ci +:+ String "/" clusterID, h).
Proof.
  intros Hid Ha. unfold NameIDFor. rewrite Hid.
  rewrite (bind_Some _ _ _ _ _ (load_Some _ _ _ Ha)).
  by case_decide.
Qed.

(** The reading of C3: the round trip for an id of the registry whose name
    has no '/'. *)
Definition name_id_round_trip (pcm : PrometheusClusterMap) (h : heap)
    (clusterID : string) : Prop :=
  ∀ (a : addr) (ci : ClusterInfo),
    clusters pcm !! clusterID = Some (Some a) →
    h !! a = Some ci →
    Contains (Name ci) "/" = false →
    ∃ nameID : string,
      NameIDFor pcm clusterID h = Some (nameID, h)
      ∧ SplitNameID nameID = Some (clusterID, Name ci).

Definition slashCluster : PrometheusClusterMap :=
  {| client := downClient; clusters := {[ "eu/c-1" := Some 0 ]}; localCluster := ∅ |}.

Definition slashCell : heap :=
  [ {| ID := "eu/c-1"; Name := ""; Profile := ""; Provider := ""; Provisioner := "" |} ].

(** C3, refuted as stated: the unnamed cluster "eu/c-1" is encoded as
    "eu/c-1", which decodes to the id "c-1" with the name "eu". *)
Lemma round_trip_fails_on_slash_in_id :
  ¬ name_id_round_trip slashCluster slashCell "eu/c-1".
Proof.
  intros H. destruct (H 0 _ eq_refl eq_refl eq_refl) as (nameID & Hn & Hs).
  vm_compute in Hn. injection Hn as <-. vm_compute in Hs. discriminate Hs.
Qed.

(** C3, amended: for a cluster id present in the registry, when neither its
    name nor the id itself contains a '/', [SplitNameID] applied to
    [NameIDFor id] returns the original (id, name) pair. *)
Theorem name_id_round_trip_no_slash (pcm : PrometheusClusterMap) (h : heap)
    (clusterID : string) (a : addr) (ci : ClusterInfo) :
  clusters pcm !! clusterID = Some (Some a) →
  h !! a = Some ci →
  Contains (Name ci) "/" = false →
  Contains clusterID "/" = false →
  ∃ nameID : string,
    NameIDFor pcm clusterID h = Some (nameID, h)
    ∧ SplitNameID nameID = Some (clusterID, Name ci).
Proof.
  intros Hid Ha Hname Hcid. eexists. split; [by apply (NameIDFor_known _ _ _ a ci)|].
  case_decide as Hempty.
  - rewrite Hempty. by apply SplitNameID_bare.
  - rewrite (SplitNameID_cut _ _ Hname). by rewrite upTo_without.
Qed.

Lemma name_id_round_trip_no_slash_witness :
  ∃ nameID : string,
    NameIDFor oneCluster "c-1" oneCell = Some (nameID, oneCell)
    ∧ SplitNameID nameID = Some ("c-1", "prod").
Proof.
  apply (name_id_round_trip_no_slash oneCluster oneCell "c-1" 0
           {| ID := "c-1"; Name := "prod"; Profile := "production";
              Provider := "GCP"; Provisioner := "GKE" |});
    reflexivity.
Defined.

(** A cluster with a name, and a '/' in its id. *)
Definition regionCluster : PrometheusClusterMap :=
  {| client := downClient; clusters := {[ "eu/c-1" := Some 0 ]}; localCluster := ∅ |}.

Definition regionCell : heap :=
  [ {| ID := "eu/c-1"; Name := "prod"; Profile := "production";
       Provider := "GCP"; Provisioner := "GKE" |} ].

(** C2, on the code: [SplitNameID] does not return the text after the first
    '/' as the id.  For the cluster "eu/c-1" named "prod", [NameIDFor]
    returns "prod/eu/c-1" in its format <name>/<id>; [SplitNameID] cuts that
    at every '/' and returns the first two pieces, so the id comes back as
    "eu" and not as "eu/c-1", the text after the first '/': the identifier
    is not split back into the id and the name it was made of. *)
Theorem SplitNameID_truncates_id :
  NameIDFor regionCluster "eu/c-1" regionCell = Some ("prod/eu/c-1", regionCell)
  ∧ Split "prod/eu/c-1" "/" = ["prod"; "eu"; "c-1"]
  ∧ SplitNameID "prod/eu/c-1" = Some ("eu", "prod")
  ∧ after "prod/eu/c-1" "/" = "eu/c-1"
  ∧ ¬ splits_on_first_slash "prod/eu/c-1".
Proof.
  split; [reflexivity|]. split; [reflexivity|]. split; [reflexivity|].
  split; [reflexivity|].
  intros H. specialize (H eq_refl). vm_compute in H. discriminate H.
Qed.
(** *** The registry's pointers

    Every entry of a snapshot points to an allocated cell that carries the
    entry's key as its ID: [loadClusters] stores nothing else. *)

Definition registry_ok (clusters : gmap string ptr) (h : heap) : Prop :=
  ∀ (id : string) (p : ptr),
    clusters !! id = Some p →
    ∃ (a : addr) (ci : ClusterInfo), p = Some a ∧ h !! a = Some ci ∧ ID ci = id.

Lemma registry_ok_empty (h : heap) : registry_ok ∅ h.
Proof. intros id p Hid. by rewrite lookup_empty in Hid. Qed.

Lemma registry_ok_grow (clusters : gmap string ptr) (h ext : heap) :
  registry_ok clusters h → registry_ok clusters (h ++ ext).
Proof.
  intros Hok id p Hid. destruct (Hok id p Hid) as (a & ci & -> & Ha & Hci).
  exists a, ci. split; [done|]. split; [|done]. by apply lookup_app_l_Some.
Qed.

Lemma registry_ok_insert (clusters : gmap string ptr) (h : heap)
    (ci : ClusterInfo) :
  registry_ok clusters h →
  registry_ok (<[ID ci := Some (length h)]> clusters) (h ++ [ci]).
Proof.
  intros Hok id p. rewrite lookup_insert. case_decide as Hid.
  - intros [= <-]. exists (length h), ci. split; [done|]. split; [|done].
    by rewrite lookup_app_r, Nat.sub_diag.
  - intros Hp. by apply (registry_ok_grow _ _ [ci] Hok).
Qed.

(** C10: for a cluster id absent from the snapshot, [InfoFor] returns the nil
    pointer, allocating no record (and it has no error to return).  For a
    present id it returns the address of a new record: one that was not
    allocated before the call, hence differs from the registry's own, and
    that holds the same five fields; the cells allocated before are
    untouched.  A registry whose entries all point to records therefore
    answers nil exactly for the unknown ids. *)
Theorem InfoFor_nil_or_fresh_clone (pcm : PrometheusClusterMap)
    (clusterID : string) (h : heap) :
  registry_ok (clusters pcm) h →
  (clusters pcm !! clusterID = None → InfoFor pcm clusterID h = Some (None, h))
  ∧ (∀ p : ptr, clusters pcm !! clusterID = Some p →
       ∃ (a a' : addr) (ci : ClusterInfo),
         p = Some a ∧ h !! a = Some ci
         ∧ InfoFor pcm clusterID h = Some (Some a', h ++ [ci])
         ∧ h !! a' = None ∧ a' ≠ a
         ∧ (h ++ [ci]) !! a' = Some ci
         ∧ (∀ (b : addr) (c : ClusterInfo), h !! b = Some c → (h ++ [ci]) !! b = Some c))
  ∧ (∀ (r : ptr) (h' : heap),
       InfoFor pcm clusterID h = Some (r, h') →
       (r = None ↔ clusters pcm !! clusterID = None)).
Proof.
  intros Hok. unfold InfoFor. split; [by intros ->|]. split.
  - intros p Hp. destruct (Hok _ _ Hp) as (a & ci & -> & Ha & _).
    exists a, (length h), ci. rewrite Hp, (Clone_copies _ _ _ Ha).
    repeat split; try done.
    + by apply lookup_ge_None_2.
    + apply lookup_lt_Some in Ha. lia.
    + by rewrite lookup_app_r, Nat.sub_diag.
    + intros b c Hb. by apply lookup_app_l_Some.
  - intros r h'. destruct (clusters pcm !! clusterID) as [p|] eqn:Hp.
    + destruct (Hok _ _ Hp) as (a & ci & -> & Ha & _).
      rewrite (Clone_copies _ _ _ Ha). intros [= <- <-]. split; discriminate.
    + by intros [= <- <-].
Qed.

Lemma registry_ok_oneCluster : registry_ok (clusters oneCluster) oneCell.
Proof.
  intros id p. unfold oneCluster. simpl. rewrite lookup_singleton.
  case_decide as Hid; [|done]. intros [= <-]. subst id.
  eexists 0, _. split; [done|]. split; reflexivity.
Qed.

Lemma InfoFor_nil_or_fresh_clone_witness :
  InfoFor oneCluster "c-2" oneCell = Some (None, oneCell)
  ∧ ∃ (a a' : addr) (ci : ClusterInfo),
      Some 0 = Some a ∧ oneCell !! a = Some ci
      ∧ InfoFor oneCluster "c-1" oneCell = Some (Some a', oneCell ++ [ci])
      ∧ oneCell !! a' = None ∧ a' ≠ a
      ∧ (oneCell ++ [ci]) !! a' = Some ci
      ∧ (∀ (b : addr) (c : ClusterInfo),
           oneCell !! b = Some c → (oneCell ++ [ci]) !! b = Some c).
Proof.
  split.
  - apply (InfoFor_nil_or_fresh_clone oneCluster "c-2" oneCell registry_ok_oneCluster).
    reflexivity.
  - apply (InfoFor_nil_or_fresh_clone oneCluster "c-1" oneCell registry_ok_oneCluster).
    reflexivity.
Defined.

Example InfoFor_present :
  InfoFor oneCluster "c-1" oneCell = Some (Some 1, oneCell ++ oneCell).
Proof. reflexivity. Qed.

(** *** Refreshing *)

Lemma Retry_all_fail (f : nat → iface * error) (attempts n : nat) :
  0 < attempts →
  (∀ k : nat, n ≤ k < n + attempts → (f k).2 ≠ None) →
  (Retry f attempts n).2 ≠ None.
Proof.
  revert n. induction attempts as [|r IH]; intros n Hpos Hfail; [lia|].
  simpl. pose proof (Hfail n ltac:(lia)) as Hn.
  destruct (f n) as [result [e|]]; [|done].
  destruct r as [|r']; [done|].
  apply IH; [lia|]. intros k Hk. apply Hfail. lia.
Qed.

Lemma Retry_first_success (f : nat → iface * error) (attempts n : nat)
    (result : iface) :
  f n = (result, None) → Retry f (S attempts) n = (result, None).
Proof. simpl. by intros ->. Qed.

Lemma loadClusters_error (e : Env) (pcm : PrometheusClusterMap) (h : heap)
    (offset := if IsThanos (client pcm) then QueryOffset e else "") :
  (Retry (QuerySync (client pcm) (clusterInfoQuery offset)) LoadRetries 0).2 ≠ None →
  ∃ msg : string, loadClusters e pcm h = Some ((∅, Some msg), h).
Proof.
  unfold loadClusters. fold offset.
  destruct (Retry _ _ _) as [result [msg|]]; [|done].
  intros _. exists msg. by destruct result.
Qed.

(** C5: when every one of the 6 attempts of a refresh's query fails, the
    refresh gives up and leaves the registry as it was: the same snapshot
    (and client and local provider), and a heap with no cell added or
    changed. *)
Theorem refresh_failure_keeps_snapshot (e : Env) (pcm : PrometheusClusterMap)
    (h : heap) :
  (∀ attempt : nat, attempt < LoadRetries →
     (QuerySync (client pcm)
        (clusterInfoQuery (if IsThanos (client pcm) then QueryOffset e else ""))
        attempt).2 ≠ None) →
  refreshClusters e pcm h = Some (pcm, h).
Proof.
  intros Hfail. unfold refreshClusters.
  destruct (loadClusters_error e pcm h) as [msg Hload].
  - apply Retry_all_fail; [unfold LoadRetries; lia|].
    intros k Hk. apply Hfail. lia.
  - by rewrite (bind_Some _ _ _ _ _ Hload).
Qed.

Definition localEnv : Env := {| QueryOffset := ""; GetClusterID := "c-9" |}.

Lemma refresh_failure_keeps_snapshot_witness :
  refreshClusters localEnv oneCluster oneCell = Some (oneCluster, oneCell).
Proof.
  apply (refresh_failure_keeps_snapshot localEnv oneCluster oneCell).
  intros attempt _. simpl. discriminate.
Defined.

(** *** Loading the rows of a query result *)

(** What a snapshot says: each id with the record its pointer leads to
    ([None] for a pointer that leads nowhere). *)
Definition view (clusters : gmap string ptr) (h : heap)
  : gmap string (option ClusterInfo) :=
  (λ p : ptr, p ≫= (h !!.)) <$> clusters.

(** The record a row stands for, in the words of the spec: none when the
    row lacks its id or its name; otherwise the id and the name, with the
    profile, provider and provisioner defaulting to the empty string. *)
Definition rowInfo (row : QueryResult) : option ClusterInfo :=
  match row !! "id", row !! "name" with
  | Some id, Some name =>
      Some {| ID := id; Name := name;
              Profile := default "" (row !! "clusterprofile");
              Provider := default "" (row !! "provider");
              Provisioner := default "" (row !! "provisioner") |}
  | _, _ => None
  end.

(** The snapshot the rows stand for: every row with a record enters it
    under its id, in order, and the others are passed over. *)
Definition enterRow (snapshot : gmap string ClusterInfo) (row : QueryResult)
  : gmap string ClusterInfo :=
  match rowInfo row with
  | Some ci => <[ID ci := ci]> snapshot
  | None => snapshot
  end.

Definition rowsSnapshot (rows : list QueryResult) : gmap string ClusterInfo :=
  foldl enterRow ∅ rows.

Lemma loadResult_rowInfo (row : QueryResult) (clusters : gmap string ptr)
    (h : heap) :
  loadResult row clusters h
  = Some (match rowInfo row with
          | Some ci => (<[ID ci := Some (length h)]> clusters, h ++ [ci])
          | None => (clusters, h)
          end).
Proof.
  unfold loadResult, rowInfo, GetString.
  destruct (row !! "id") as [id|]; [|done].
  destruct (row !! "name") as [name|]; [|done].
  by destruct (row !! "clusterprofile"), (row !! "provider"),
    (row !! "provisioner").
Qed.

Lemma view_grow (clusters : gmap string ptr) (h ext : heap)
    (snapshot : gmap string ClusterInfo) :
  view clusters h = Some <$> snapshot →
  view clusters (h ++ ext) = Some <$> snapshot.
Proof.
  intros Hv. apply map_eq. intros id.
  apply (f_equal (.!! id)) in Hv. revert Hv. unfold view.
  rewrite !lookup_fmap.
  destruct (clusters !! id) as [[a|]|], (snapshot !! id) as [ci|];
    simpl; try done.
  intros [= Ha]. by rewrite (lookup_app_l_Some _ _ _ _ Ha).
Qed.

Lemma view_enter (clusters : gmap string ptr) (h : heap)
    (snapshot : gmap string ClusterInfo) (ci : ClusterInfo) :
  view clusters h = Some <$> snapshot →
  view (<[ID ci := Some (length h)]> clusters) (h ++ [ci])
  = Some <$> <[ID ci := ci]> snapshot.
Proof.
  intros Hv. unfold view. rewrite !fmap_insert. simpl.
  rewrite lookup_app_r, Nat.sub_diag by done. simpl. f_equal.
  by apply view_grow.
Qed.

(** The loop computes, behind its pointers, the snapshot the rows stand
    for; it never panics and only adds cells to the heap. *)
Lemma loadResults_view (rows : list QueryResult) :
  ∀ (clusters : gmap string ptr) (h : heap) (snapshot : gmap string ClusterInfo),
    view clusters h = Some <$> snapshot →
    ∃ (clusters' : gmap string ptr) (ext : heap),
      loadResults rows clusters h = Some (clusters', h ++ ext)
      ∧ view clusters' (h ++ ext) = Some <$> foldl enterRow snapshot rows.
Proof.
  induction rows as [|row rows IH]; intros clusters h snapshot Hv.
  - exists clusters, []. rewrite app_nil_r. done.
  - simpl. unfold bind. rewrite loadResult_rowInfo. unfold enterRow at 2.
    destruct (rowInfo row) as [ci|].
    + destruct (IH _ _ _ (view_enter _ _ _ ci Hv)) as (clusters' & ext & Hrun & Hv').
      exists clusters', ([ci] ++ ext). by rewrite app_assoc.
    + by apply IH.
Qed.

Lemma view_empty (h : heap) : view ∅ h = Some <$> (∅ : gmap string ClusterInfo).
Proof. unfold view. by rewrite !fmap_empty. Qed.

Lemma rowsSnapshot_snoc (rows : list QueryResult) (row : QueryResult) :
  rowsSnapshot (rows ++ [row]) = enterRow (rowsSnapshot rows) row.
Proof. unfold rowsSnapshot. by rewrite foldl_app. Qed.

Lemma foldl_enterRow_skip (rows : list QueryResult) :
  ∀ (snapshot : gmap string ClusterInfo) (id : string),
    (∀ row ci, row ∈ rows → rowInfo row = Some ci → ID ci ≠ id) →
    foldl enterRow snapshot rows !! id = snapshot !! id.
Proof.
  induction rows as [|row rows IH]; intros snapshot id Hne; [done|].
  simpl. rewrite IH.
  - unfold enterRow. destruct (rowInfo row) as [ci|] eqn:Hrow; [|done].
    apply lookup_insert_ne. apply (Hne row); [left|done].
  - intros row' ci Hin. apply Hne. by right.
Qed.

Lemma foldl_enterRow_missing (before after : list QueryResult)
    (row : QueryResult) (snapshot : gmap string ClusterInfo) :
  rowInfo row = None →
  foldl enterRow snapshot (before ++ row :: after)
  = foldl enterRow snapshot (before ++ after).
Proof.
  intros Hrow. rewrite !foldl_app. simpl. unfold enterRow at 2.
  by rewrite Hrow.
Qed.

Lemma foldl_enterRow_last (before after : list QueryResult)
    (row : QueryResult) (ci : ClusterInfo) (snapshot : gmap string ClusterInfo) :
  rowInfo row = Some ci →
  (∀ row' ci', row' ∈ after → rowInfo row' = Some ci' → ID ci' ≠ ID ci) →
  foldl enterRow snapshot (before ++ row :: after) !! ID ci = Some ci.
Proof.
  intros Hrow Hafter. rewrite foldl_app. simpl.
  rewrite (foldl_enterRow_skip _ _ _ Hafter). unfold enterRow at 1.
  rewrite Hrow. apply lookup_insert_eq.
Qed.

Lemma foldl_enterRow_origin (rows : list QueryResult) :
  ∀ (snapshot : gmap string ClusterInfo) (id : string) (ci : ClusterInfo),
    foldl enterRow snapshot rows !! id = Some ci →
    snapshot !! id = Some ci
    ∨ ∃ row, row ∈ rows ∧ rowInfo row = Some ci ∧ ID ci = id.
Proof.
  induction rows as [|row rows IH]; intros snapshot id ci Hid; [by left|].
  simpl in Hid. destruct (IH _ _ _ Hid) as [Hs | (row' & Hin & Hrow & Hci)].
  - unfold enterRow in Hs. destruct (rowInfo row) as [ci0|] eqn:Hrow; [|by left].
    rewrite lookup_insert in Hs. case_decide as Heq; [|by left].
    injection Hs as ->. right. exists row. split; [left|]. done.
  - right. exists row'. split; [by right|done].
Qed.

Lemma foldl_enterRow_keeps (rows : list QueryResult) :
  ∀ (snapshot : gmap string ClusterInfo) (id : string),
    is_Some (snapshot !! id) → is_Some (foldl enterRow snapshot rows !! id).
Proof.
  induction rows as [|row rows IH]; intros snapshot id Hid; [done|].
  simpl. apply IH. unfold enterRow. destruct (rowInfo row) as [ci|]; [|done].
  rewrite lookup_insert. by case_decide.
Qed.

Lemma foldl_enterRow_enters (rows : list QueryResult) :
  ∀ (snapshot : gmap string ClusterInfo) (row : QueryResult) (ci : ClusterInfo),
    row ∈ rows → rowInfo row = Some ci →
    is_Some (foldl enterRow snapshot rows !! ID ci).
Proof.
  induction rows as [|row0 rows IH]; intros snapshot row ci Hin Hrow.
  - by apply not_elem_of_nil in Hin.
  - simpl. apply elem_of_cons in Hin as [<- | Hin]; [|by apply (IH _ row)].
    apply foldl_enterRow_keeps. unfold enterRow. rewrite Hrow.
    rewrite lookup_insert_eq. by eexists.
Qed.

Lemma rowInfo_None (row : QueryResult) :
  row !! "id" = None ∨ row !! "name" = None → rowInfo row = None.
Proof.
  unfold rowInfo. intros [-> | ->]; [done|]. by destruct (row !! "id").
Qed.

Lemma rowInfo_Some (row : QueryResult) (id name : string) :
  row !! "id" = Some id → row !! "name" = Some name →
  rowInfo row = Some {| ID := id; Name := name;
                        Profile := default "" (row !! "clusterprofile");
                        Provider := default "" (row !! "provider");
                        Provisioner := default "" (row !! "provisioner") |}.
Proof. unfold rowInfo. by intros -> ->. Qed.

Lemma rowInfo_id (row : QueryResult) (ci : ClusterInfo) :
  rowInfo row = Some ci → row !! "id" = Some (ID ci).
Proof.
  unfold rowInfo. destruct (row !! "id") as [id|]; [|done].
  destruct (row !! "name") as [name|]; [|done]. by intros [= <-].
Qed.

(** C9: the loop over the rows of a query result passes over every row that
    lacks its 'id' or its 'name' and goes on with the rest, and every row
    with both enters the snapshot under its id, its profile, provider and
    provisioner defaulting to the empty string (a later row with the same
    id takes the place of an earlier one); nothing else is in the
    snapshot, and the loop never panics. *)
Theorem loadResults_rows (rows : list QueryResult) (h : heap) :
  ∃ (clusters : gmap string ptr) (ext : heap),
    loadResults rows ∅ h = Some (clusters, h ++ ext)
    ∧ view clusters (h ++ ext) = Some <$> rowsSnapshot rows
    ∧ (∀ before row after,
         rows = before ++ row :: after →
         row !! "id" = None ∨ row !! "name" = None →
         rowsSnapshot rows = rowsSnapshot (before ++ after))
    ∧ (∀ before row after id name,
         rows = before ++ row :: after →
         row !! "id" = Some id → row !! "name" = Some name →
         (∀ row', row' ∈ after → row' !! "id" ≠ Some id) →
         view clusters (h ++ ext) !! id
         = Some (Some {| ID := id; Name := name;
                         Profile := default "" (row !! "clusterprofile");
                         Provider := default "" (row !! "provider");
                         Provisioner := default "" (row !! "provisioner") |}))
    ∧ (∀ row id name,
         row ∈ rows → row !! "id" = Some id → row !! "name" = Some name →
         ∃ ci, view clusters (h ++ ext) !! id = Some (Some ci) ∧ ID ci = id)
    ∧ (∀ id ci,
         view clusters (h ++ ext) !! id = Some (Some ci) →
         ID ci = id
         ∧ ∃ row, row ∈ rows ∧ row !! "id" = Some id
                  ∧ row !! "name" = Some (Name ci)).
Proof.
  destruct (loadResults_view rows ∅ h ∅ (view_empty h))
    as (clusters & ext & Hrun & Hv).
  fold (rowsSnapshot rows) in Hv.
  assert (∀ id ci, view clusters (h ++ ext) !! id = Some (Some ci) →
                   ∃ row, row ∈ rows ∧ rowInfo row = Some ci ∧ ID ci = id)
    as Horigin.
  { intros id ci. rewrite Hv, lookup_fmap. intros Hid.
    destruct (rowsSnapshot rows !! id) as [ci'|] eqn:Hs; [|done].
    injection Hid as ->.
    destruct (foldl_enterRow_origin _ _ _ _ Hs) as [He|Hrow]; [|done].
    by rewrite lookup_empty in He. }
  exists clusters, ext. split; [done|]. split; [done|]. repeat split.
  - intros before row after -> Hmiss.
    by apply foldl_enterRow_missing, rowInfo_None.
  - intros before row after id name -> Hid Hname Hafter.
    rewrite Hv, lookup_fmap. unfold rowsSnapshot.
    pose proof (rowInfo_Some _ _ _ Hid Hname) as Hrow.
    erewrite (foldl_enterRow_last before after row _ ∅ Hrow); [done|].
    simpl. intros row' ci' Hin Hrow' Heq. apply (Hafter row' Hin).
    by rewrite (rowInfo_id _ _ Hrow'), Heq.
  - intros row id name Hin Hid Hname.
    pose proof (rowInfo_Some _ _ _ Hid Hname) as Hrow.
    destruct (foldl_enterRow_enters rows ∅ row _ Hin Hrow) as [ci Hci].
    simpl in Hci. exists ci.
    assert (view clusters (h ++ ext) !! id = Some (Some ci)) as Hview.
    { rewrite Hv, lookup_fmap. unfold rowsSnapshot. by rewrite Hci. }
    split; [done|]. by destruct (Horigin _ _ Hview) as (? & _ & _ & ?).
  - by destruct (Horigin _ _ H) as (? & _ & _ & ?).
  - destruct (Horigin _ _ H) as (row & Hin & Hrow & Hci).
    exists row. split; [done|]. rewrite <- Hci. split; [by apply rowInfo_id|].
    revert Hrow. unfold rowInfo. destruct (row !! "id"); [|done].
    destruct (row !! "name"); [|done]. by intros [= <-].
Qed.

(** A stream of one row without id and one row with id and name yields the
    snapshot of the second row alone, in either order. *)
Lemma loadResults_one_good_row (bad good : QueryResult) (id name : string)
    (h : heap)
    (ci := {| ID := id; Name := name;
              Profile := default "" (good !! "clusterprofile");
              Provider := default "" (good !! "provider");
              Provisioner := default "" (good !! "provisioner") |}) :
  bad !! "id" = None →
  good !! "id" = Some id → good !! "name" = Some name →
  loadResults [bad; good] ∅ h = Some ({[ id := Some (length h) ]}, h ++ [ci])
  ∧ loadResults [good; bad] ∅ h = Some ({[ id := Some (length h) ]}, h ++ [ci]).
Proof.
  intros Hbad Hid Hname. simpl. unfold bind.
  rewrite !loadResult_rowInfo, (rowInfo_None bad), (rowInfo_Some good id name)
    by auto.
  rewrite !loadResult_rowInfo, (rowInfo_None bad), (rowInfo_Some good id name)
    by auto.
  simpl. unfold ret. by rewrite insert_empty.
Qed.

Definition rowWithoutID : QueryResult :=
  {[ "name" := "staging"; "provider" := "AWS" ]}.

Definition rowComplete : QueryResult :=
  {[ "id" := "c-1"; "name" := "prod"; "provider" := "GCP" ]}.

Lemma loadResults_rows_witness :
  ∃ (clusters : gmap string ptr) (ext : heap),
    loadResults [rowWithoutID; rowComplete] ∅ [] = Some (clusters, ext)
    ∧ view clusters ext
      = {[ "c-1" := Some {| ID := "c-1"; Name := "prod"; Profile := "";
                            Provider := "GCP"; Provisioner := "" |} ]}.
Proof.
  destruct (loadResults_rows [rowWithoutID; rowComplete] [])
    as (clusters & ext & Hrun & Hview & _).
  simpl app in Hrun, Hview.
  exists clusters, ext. split; [exact Hrun|]. rewrite Hview. reflexivity.
Defined.

Example loadResults_skips_rowWithoutID :
  loadResults [rowWithoutID; rowComplete] ∅ []
  = Some ({[ "c-1" := Some 0 ]},
          [ {| ID := "c-1"; Name := "prod"; Profile := "";
               Provider := "GCP"; Provisioner := "" |} ]).
Proof. reflexivity. Qed.

(** *** The invariant of the registry

    A refresh never panics, only adds cells to the heap, and leaves a
    registry whose entries all point to records. *)

Lemma loadResults_registry_ok (rows : list QueryResult) :
  ∀ (clusters : gmap string ptr) (h : heap),
    registry_ok clusters h →
    ∃ (clusters' : gmap string ptr) (ext : heap),
      loadResults rows clusters h = Some (clusters', h ++ ext)
      ∧ registry_ok clusters' (h ++ ext).
Proof.
  induction rows as [|row rows IH]; intros clusters h Hok.
  - exists clusters, []. by rewrite app_nil_r.
  - simpl. unfold bind. rewrite loadResult_rowInfo.
    destruct (rowInfo row) as [ci|]; [|by apply IH].
    destruct (IH _ _ (registry_ok_insert _ _ ci Hok)) as (clusters' & ext & Hrun & Hok').
    exists clusters', ([ci] ++ ext). by rewrite app_assoc.
Qed.

Lemma populateLocal_registry_ok (e : Env) (pcm : PrometheusClusterMap)
    (clusters : gmap string ptr) (h : heap) :
  registry_ok clusters h →
  ∃ (clusters' : gmap string ptr) (ext : heap),
    populateLocal e pcm clusters h = Some (clusters', h ++ ext)
    ∧ registry_ok clusters' (h ++ ext).
Proof.
  intros Hok. unfold populateLocal, getLocalClusterInfo.
  destruct (clusters !! GetClusterID e).
  { exists clusters, []. by rewrite app_nil_r. }
  destruct (localCluster pcm !! "id") as [id|].
  2:{ exists clusters, []. by rewrite app_nil_r. }
  destruct (localCluster pcm !! "name") as [name|].
  2:{ exists clusters, []. by rewrite app_nil_r. }
  eexists _, [_]. unfold bind, alloc, ret, load. simpl.
  rewrite lookup_app_r, Nat.sub_diag by done. simpl.
  split; [done|]. by apply (registry_ok_insert clusters h (mkClusterInfo _ _ _ _ _)).
Qed.

Lemma refreshClusters_registry_ok (e : Env) (pcm : PrometheusClusterMap)
    (h : heap) :
  registry_ok (clusters pcm) h →
  ∃ (pcm' : PrometheusClusterMap) (ext : heap),
    refreshClusters e pcm h = Some (pcm', h ++ ext)
    ∧ registry_ok (clusters pcm') (h ++ ext).
Proof.
  intros Hok. unfold refreshClusters, loadClusters, bind.
  destruct (Retry _ _ _) as [[qr|] [msg|]].
  - exists pcm, []. by rewrite app_nil_r.
  - destruct (loadResults_registry_ok qr ∅ h (registry_ok_empty h))
      as (m1 & ext1 & -> & Hok1).
    destruct (populateLocal_registry_ok e pcm m1 _ Hok1)
      as (m2 & ext2 & -> & Hok2).
    eexists _, (ext1 ++ ext2). rewrite app_assoc. by split.
  - exists pcm, []. by rewrite app_nil_r.
  - eexists _, []. rewrite app_nil_r. split; [done|]. apply registry_ok_empty.
Qed.

(** *** Name identifiers, whatever the input *)

Lemma SplitNameID_with_slash (nameID : string) :
  Contains nameID "/" = true →
  SplitNameID nameID = Some (upTo (after nameID "/") "/", upTo nameID "/").
Proof.
  intros Hc. rewrite (cut_first _ _ Hc) at 1.
  apply SplitNameID_cut, Contains_upTo.
Qed.

(** X1: [SplitNameID] never indexes out of range: it returns a pair for every
    string.  The name returned never contains a '/', and neither does the id
    when the input has one. *)
Theorem SplitNameID_total_slash_free (nameID : string) :
  ∃ id name : string,
    SplitNameID nameID = Some (id, name)
    ∧ Contains name "/" = false
    ∧ (Contains nameID "/" = true → Contains id "/" = false).
Proof.
  destruct (Contains nameID "/") eqn:Hc.
  - exists (upTo (after nameID "/") "/"), (upTo nameID "/").
    split; [by apply SplitNameID_with_slash|].
    split; [apply Contains_upTo|]. intros _. apply Contains_upTo.
  - exists nameID, "". split; [by apply SplitNameID_bare|]. done.
Qed.

(** *** Copies of the whole registry *)

Section RangeFacts.

Variable rangeOrder : gmap string ptr → list (string * ptr).

(** The loop of [AsMap] puts the copy of the [i]-th entry visited at the
    [i]-th new address, and leaves the other keys of the map alone. *)
Lemma cloneEntries_spec (entries : list (string * ptr)) :
  ∀ (m : gmap string ptr) (h : heap),
    (∀ k p, (k, p) ∈ entries → ∃ a ci, p = Some a ∧ h !! a = Some ci) →
    NoDup entries.*1 →
    ∃ (m' : gmap string ptr) (ext : heap),
      cloneEntries entries m h = Some (m', h ++ ext)
      ∧ length ext = length entries
      ∧ (∀ i k p, entries !! i = Some (k, p) →
           m' !! k = Some (Some (length h + i))
           ∧ (h ++ ext) !! (length h + i) = p ≫= (h !!.))
      ∧ (∀ k, k ∉ entries.*1 → m' !! k = m !! k).
Proof.
  induction entries as [|[k p] entries IH]; intros m h Hvalid Hnodup.
  - exists m, []. rewrite app_nil_r. repeat split; try done.
  - destruct (Hvalid k p) as (a & ci & -> & Ha); [left|].
    apply NoDup_cons in Hnodup as [Hk Hnodup]. simpl in Hk.
    destruct (IH (<[k := Some (length h)]> m) (h ++ [ci])) as
      (m' & ext & Hrun & Hlen & Hnew & Hold); [|done|].
    { intros k' p' Hin. destruct (Hvalid k' p') as (a' & ci' & -> & Ha'); [by right|].
      exists a', ci'. split; [done|]. by apply lookup_app_l_Some. }
    exists m', ([ci] ++ ext). simpl cloneEntries.
    rewrite (bind_Some _ _ _ _ _ (Clone_copies _ _ _ Ha)).
    rewrite app_assoc. split; [done|]. split; [simpl; by rewrite Hlen|].
    split.
    + intros [|i] k' p' Hi; simpl in Hi.
      * injection Hi as <- <-. rewrite Hold, lookup_insert_eq by done.
        rewrite Nat.add_0_r. split; [done|]. simpl.
        rewrite <- app_assoc, lookup_app_r, Nat.sub_diag by done. by rewrite Ha.
      * destruct (Hnew i k' p' Hi) as [Hm Hh]. rewrite length_app in Hm, Hh.
        simpl in Hm, Hh. rewrite <- Nat.add_assoc in Hm, Hh. simpl in Hm, Hh.
        split; [done|]. rewrite Hh.
        destruct (Hvalid k' p') as (a' & ci' & -> & Ha').
        { right. by apply list_elem_of_lookup_2 in Hi. }
        simpl. by rewrite (lookup_app_l_Some _ _ _ _ Ha').
    + intros k' Hk'. simpl in Hk'. apply not_elem_of_cons in Hk' as [Hne Hk'].
      rewrite (Hold k' Hk'). by apply lookup_insert_ne.
Qed.

Lemma rangeOrder_valid (pcm : PrometheusClusterMap) (h : heap) :
  rangeOrder (clusters pcm) ≡ₚ map_to_list (clusters pcm) →
  registry_ok (clusters pcm) h →
  (∀ k p, (k, p) ∈ rangeOrder (clusters pcm) ↔ clusters pcm !! k = Some p)
  ∧ NoDup (rangeOrder (clusters pcm)).*1
  ∧ (∀ k p, (k, p) ∈ rangeOrder (clusters pcm) →
       ∃ a ci, p = Some a ∧ h !! a = Some ci).
Proof.
  intros Hperm Hok.
  assert (∀ k p, (k, p) ∈ rangeOrder (clusters pcm) ↔ clusters pcm !! k = Some p)
    as Hin.
  { intros k p. rewrite Hperm. apply elem_of_map_to_list. }
  split; [done|]. split.
  - rewrite Hperm. apply NoDup_fst_map_to_list.
  - intros k p Hkp. apply Hin in Hkp.
    destruct (Hok k p Hkp) as (a & ci & -> & Ha & _). by exists a, ci.
Qed.

(** What [AsMap] returns: one new record per entry, at the addresses after
    the heap's, in the order of the visit. *)
Lemma AsMap_spec (pcm : PrometheusClusterMap) (h : heap) :
  rangeOrder (clusters pcm) ≡ₚ map_to_list (clusters pcm) →
  registry_ok (clusters pcm) h →
  ∃ (m : gmap string ptr) (ext : heap),
    AsMap rangeOrder pcm h = Some (m, h ++ ext)
    ∧ length ext = size (clusters pcm)
    ∧ (∀ k p, clusters pcm !! k = Some p →
         ∃ i, i < length ext ∧ rangeOrder (clusters pcm) !! i = Some (k, p)
              ∧ m !! k = Some (Some (length h + i))
              ∧ (h ++ ext) !! (length h + i) = p ≫= (h !!.))
    ∧ (∀ k, clusters pcm !! k = None → m !! k = None).
Proof.
  intros Hperm Hok.
  destruct (rangeOrder_valid pcm h Hperm Hok) as (Hin & Hnodup & Hvalid).
  destruct (cloneEntries_spec _ ∅ h Hvalid Hnodup)
    as (m & ext & Hrun & Hlen & Hnew & Hold).
  exists m, ext. split; [done|]. split.
  { rewrite Hlen, Hperm. apply length_map_to_list. }
  split.
  - intros k p Hkp. apply Hin in Hkp.
    apply list_elem_of_lookup_1 in Hkp as [i Hi]. exists i.
    split; [rewrite Hlen; by apply lookup_lt_Some in Hi|].
    split; [done|]. by apply Hnew.
  - intros k Hk. rewrite Hold; [done|].
    intros Hel. apply list_elem_of_fmap in Hel as ([k' p] & -> & Hel).
    apply Hin in Hel. simpl in *. congruence.
Qed.

(** X2: [AsMap] gives a map with the keys of the registry whose records are
    copies of the registry's, field for field; it allocates one record per
    entry and leaves the records allocated before as they were. *)
Theorem AsMap_equal_contents (pcm : PrometheusClusterMap) (h : heap) :
  rangeOrder (clusters pcm) ≡ₚ map_to_list (clusters pcm) →
  registry_ok (clusters pcm) h →
  ∃ (m : gmap string ptr) (ext : heap),
    AsMap rangeOrder pcm h = Some (m, h ++ ext)
    ∧ length ext = size (clusters pcm)
    ∧ view m (h ++ ext) = view (clusters pcm) h
    ∧ view (clusters pcm) (h ++ ext) = view (clusters pcm) h.
Proof.
  intros Hperm Hok.
  destruct (AsMap_spec pcm h Hperm Hok) as (m & ext & Hrun & Hlen & Hnew & Hold).
  exists m, ext. split; [done|]. split; [done|]. split.
  - apply map_eq. intros k. unfold view. rewrite !lookup_fmap.
    destruct (clusters pcm !! k) as [p|] eqn:Hk.
    + destruct (Hnew k p Hk) as (i & _ & _ & -> & Hcell). simpl. f_equal. exact Hcell.
    + by rewrite (Hold k Hk).
  - apply map_eq. intros k. unfold view. rewrite !lookup_fmap.
    destruct (clusters pcm !! k) as [p|] eqn:Hk; [|done]. simpl.
    destruct (Hok k p Hk) as (a & ci & -> & Ha & _). simpl.
    f_equal. rewrite Ha. by apply lookup_app_l_Some.
Qed.

(** X3: the records [AsMap] returns are new and distinct: none is a record of
    the registry or of an earlier copy, and no two keys share one.  So two
    calls in a row return maps of equal contents without a record in
    common. *)
Theorem AsMap_distinct_records (pcm : PrometheusClusterMap) (h : heap) :
  rangeOrder (clusters pcm) ≡ₚ map_to_list (clusters pcm) →
  registry_ok (clusters pcm) h →
  ∃ (m1 m2 : gmap string ptr) (ext1 ext2 : heap),
    AsMap rangeOrder pcm h = Some (m1, h ++ ext1)
    ∧ AsMap rangeOrder pcm (h ++ ext1) = Some (m2, (h ++ ext1) ++ ext2)
    ∧ view m1 ((h ++ ext1) ++ ext2) = view m2 ((h ++ ext1) ++ ext2)
    ∧ (∀ k a, m1 !! k = Some (Some a) → length h ≤ a < length (h ++ ext1))
    ∧ (∀ k a, m2 !! k = Some (Some a) → length (h ++ ext1) ≤ a)
    ∧ (∀ k1 k2 p, m1 !! k1 = Some p → m1 !! k2 = Some p → k1 = k2)
    ∧ (∀ k1 k2 p, m1 !! k1 = Some p → m2 !! k2 = Some p → False)
    ∧ (∀ k1 k2 p, m1 !! k1 = Some p → clusters pcm !! k2 = Some p → False).
Proof.
  intros Hperm Hok.
  destruct (AsMap_spec pcm h Hperm Hok) as (m1 & ext1 & Hrun1 & Hlen1 & Hnew1 & Hold1).
  pose proof (registry_ok_grow _ _ ext1 Hok) as Hok1.
  destruct (AsMap_spec pcm _ Hperm Hok1) as (m2 & ext2 & Hrun2 & Hlen2 & Hnew2 & Hold2).
  assert (∀ k p, m1 !! k = Some p →
            ∃ i p0, i < length ext1 ∧ rangeOrder (clusters pcm) !! i = Some (k, p0)
                    ∧ p = Some (length h + i)) as Hm1.
  { intros k p Hk. destruct (clusters pcm !! k) as [p0|] eqn:Hc.
    - destruct (Hnew1 k p0 Hc) as (i & Hi & Hr & Hm & _). exists i, p0.
      rewrite Hm in Hk. by injection Hk as <-.
    - rewrite (Hold1 k Hc) in Hk. done. }
  assert (∀ k p, m2 !! k = Some p →
            ∃ i, p = Some (length (h ++ ext1) + i)) as Hm2.
  { intros k p Hk. destruct (clusters pcm !! k) as [p0|] eqn:Hc.
    - destruct (Hnew2 k p0 Hc) as (i & Hi & Hr & Hm & _). exists i.
      rewrite Hm in Hk. by injection Hk as <-.
    - rewrite (Hold2 k Hc) in Hk. done. }
  exists m1, m2, ext1, ext2. split; [done|]. split; [done|]. split.
  { apply map_eq. intros k. unfold view. rewrite !lookup_fmap.
    destruct (clusters pcm !! k) as [p|] eqn:Hk.
    - destruct (Hnew1 k p Hk) as (i1 & _ & _ & -> & Hcell1).
      destruct (Hnew2 k p Hk) as (i2 & _ & _ & -> & Hcell2). simpl.
      rewrite Hcell2. destruct (Hok k p Hk) as (a & ci & -> & Ha & _).
      simpl in *. rewrite Ha in Hcell1.
      rewrite (lookup_app_l_Some _ _ _ _ Hcell1).
      by rewrite (lookup_app_l_Some _ _ _ _ Ha).
    - by rewrite (Hold1 k Hk), (Hold2 k Hk). }
  rewrite length_app. repeat split.
  - destruct (Hm1 _ _ H) as (i & p0 & Hi & _ & Heq). injection Heq as ->. lia.
  - destruct (Hm1 _ _ H) as (i & p0 & Hi & _ & Heq). injection Heq as ->. lia.
  - intros k a Hk. destruct (Hm2 _ _ Hk) as (i & Heq). injection Heq as ->.
    rewrite length_app. lia.
  - intros k1 k2 p Hk1 Hk2.
    destruct (Hm1 _ _ Hk1) as (i1 & p1 & _ & Hr1 & ->).
    destruct (Hm1 _ _ Hk2) as (i2 & p2 & _ & Hr2 & Heq).
    injection Heq as Heq. assert (i1 = i2) as -> by lia. congruence.
  - intros k1 k2 p Hk1 Hk2.
    destruct (Hm1 _ _ Hk1) as (i1 & p1 & Hi1 & _ & ->).
    destruct (Hm2 _ _ Hk2) as (i2 & Heq). injection Heq as Heq.
    rewrite length_app in Heq. lia.
  - intros k1 k2 p Hk1 Hk2.
    destruct (Hm1 _ _ Hk1) as (i1 & p1 & Hi1 & _ & ->).
    destruct (Hok _ _ Hk2) as (a & ci & Heq & Ha & _). injection Heq as <-.
    apply lookup_lt_Some in Ha. lia.
Qed.

(** X4: [GetClusterIDs] lists every id of the registry once and nothing
    else, and the listed ids are the ones for which [InfoFor] returns a
    record. *)
Theorem GetClusterIDs_lists_registry (pcm : PrometheusClusterMap) (h : heap) :
  rangeOrder (clusters pcm) ≡ₚ map_to_list (clusters pcm) →
  registry_ok (clusters pcm) h →
  NoDup (GetClusterIDs rangeOrder pcm)
  ∧ length (GetClusterIDs rangeOrder pcm) = size (clusters pcm)
  ∧ (∀ id, id ∈ GetClusterIDs rangeOrder pcm ↔ is_Some (clusters pcm !! id))
  ∧ (∀ id, id ∈ GetClusterIDs rangeOrder pcm ↔
           ∃ (a : addr) (h' : heap), InfoFor pcm id h = Some (Some a, h')).
Proof.
  intros Hperm Hok.
  destruct (rangeOrder_valid pcm h Hperm Hok) as (Hin & Hnodup & Hvalid).
  assert (∀ id, id ∈ GetClusterIDs rangeOrder pcm ↔ is_Some (clusters pcm !! id))
    as Hids.
  { intros id. unfold GetClusterIDs. rewrite list_elem_of_fmap. split.
    - intros ([k p] & -> & Hel). apply Hin in Hel. by exists p.
    - intros [p Hp]. exists (id, p). split; [done|]. by apply Hin. }
  split; [done|]. split.
  { unfold GetClusterIDs. rewrite length_fmap, Hperm. apply length_map_to_list. }
  split; [done|].
  intros id. rewrite Hids. unfold InfoFor. split.
  - intros [p Hp]. rewrite Hp. destruct (Hok _ _ Hp) as (a & ci & -> & Ha & _).
    rewrite (Clone_copies _ _ _ Ha). by eexists _, _.
  - intros (a & h' & Hinfo). destruct (clusters pcm !! id); [by eexists|done].
Qed.

End RangeFacts.

Lemma AsMap_equal_contents_witness :
  ∃ (m : gmap string ptr) (ext : heap),
    AsMap map_to_list oneCluster oneCell = Some (m, oneCell ++ ext)
    ∧ length ext = size (clusters oneCluster)
    ∧ view m (oneCell ++ ext) = view (clusters oneCluster) oneCell
    ∧ view (clusters oneCluster) (oneCell ++ ext) = view (clusters oneCluster) oneCell.
Proof.
  apply (AsMap_equal_contents map_to_list oneCluster oneCell);
    [reflexivity|apply registry_ok_oneCluster].
Defined.

Lemma AsMap_distinct_records_witness :
  ∃ (m1 m2 : gmap string ptr) (ext1 ext2 : heap),
    AsMap map_to_list oneCluster oneCell = Some (m1, oneCell ++ ext1)
    ∧ AsMap map_to_list oneCluster (oneCell ++ ext1)
      = Some (m2, (oneCell ++ ext1) ++ ext2)
    ∧ view m1 ((oneCell ++ ext1) ++ ext2) = view m2 ((oneCell ++ ext1) ++ ext2)
    ∧ (∀ k a, m1 !! k = Some (Some a) →
         length oneCell ≤ a < length (oneCell ++ ext1))
    ∧ (∀ k a, m2 !! k = Some (Some a) → length (oneCell ++ ext1) ≤ a)
    ∧ (∀ k1 k2 p, m1 !! k1 = Some p → m1 !! k2 = Some p → k1 = k2)
    ∧ (∀ k1 k2 p, m1 !! k1 = Some p → m2 !! k2 = Some p → False)
    ∧ (∀ k1 k2 p, m1 !! k1 = Some p → clusters oneCluster !! k2 = Some p → False).
Proof.
  apply (AsMap_distinct_records map_to_list oneCluster oneCell);
    [reflexivity|apply registry_ok_oneCluster].
Defined.

Lemma GetClusterIDs_lists_registry_witness :
  NoDup (GetClusterIDs map_to_list oneCluster)
  ∧ length (GetClusterIDs map_to_list oneCluster) = size (clusters oneCluster)
  ∧ (∀ id, id ∈ GetClusterIDs map_to_list oneCluster ↔
           is_Some (clusters oneCluster !! id))
  ∧ (∀ id, id ∈ GetClusterIDs map_to_list oneCluster ↔
           ∃ (a : addr) (h' : heap), InfoFor oneCluster id oneCell = Some (Some a, h')).
Proof.
  apply (GetClusterIDs_lists_registry map_to_list oneCluster oneCell);
    [reflexivity|apply registry_ok_oneCluster].
Defined.

Example AsMap_oneCluster :
  AsMap map_to_list oneCluster oneCell
  = Some ({[ "c-1" := Some 1 ]}, oneCell ++ oneCell).
Proof. reflexivity. Qed.

Example GetClusterIDs_oneCluster : GetClusterIDs map_to_list oneCluster = ["c-1"].
Proof. reflexivity. Qed.

(** *** Stopping twice *)

(** X5: [StopRefresh] closes the stop channel once: a call on an open channel
    closes it and clears the field, after which any further call changes
    nothing and does not panic, although closing the channel again would. *)
Theorem StopRefresh_closes_once (c : chan) (closed : gset chan) :
  c ∉ closed →
  StopRefresh (Some c) closed = Some (None, {[c]} ∪ closed)
  ∧ StopRefresh None ({[c]} ∪ closed) = Some (None, {[c]} ∪ closed)
  ∧ close c ({[c]} ∪ closed) = None
  ∧ StopRefresh (Some c) ({[c]} ∪ closed) = None.
Proof.
  intros Hopen. unfold StopRefresh, close.
  rewrite decide_False by done. rewrite decide_True by set_solver. done.
Qed.

Lemma StopRefresh_closes_once_witness :
  StopRefresh (Some 0) ∅ = Some (None, {[0]} ∪ ∅)
  ∧ StopRefresh None ({[0]} ∪ ∅) = Some (None, {[0]} ∪ ∅)
  ∧ close 0 ({[0]} ∪ ∅) = None
  ∧ StopRefresh (Some 0) ({[0]} ∪ ∅) = None.
Proof. apply (StopRefresh_closes_once 0 ∅). set_solver. Defined.

(** *** A refresh that succeeds *)

(** The record the local provider's answer stands for: none when it lacks
    its id or its name. *)
Definition localRecord (info : gmap string string) : option ClusterInfo :=
  match info !! "id", info !! "name" with
  | Some id, Some name =>
      Some {| ID := id; Name := name;
              Profile := default "" (info !! "clusterProfile");
              Provider := default "" (info !! "provider");
              Provisioner := default "" (info !! "provisioner") |}
  | _, _ => None
  end.

(** The snapshot after the local cluster is looked after: as it is when it
    has the process's cluster id or the local provider has no record;
    otherwise with the local record under the record's own id. *)
Definition withLocal (e : Env) (pcm : PrometheusClusterMap)
    (snapshot : gmap string ClusterInfo) : gmap string ClusterInfo :=
  match snapshot !! GetClusterID e with
  | Some _ => snapshot
  | None =>
      match localRecord (localCluster pcm) with
      | Some ci => <[ID ci := ci]> snapshot
      | None => snapshot
      end
  end.

Lemma getLocalClusterInfo_localRecord (pcm : PrometheusClusterMap) (h : heap) :
  match localRecord (localCluster pcm) with
  | Some ci => getLocalClusterInfo pcm h = Some ((Some (length h), None), h ++ [ci])
  | None => ∃ msg, getLocalClusterInfo pcm h = Some ((None, Some msg), h)
  end.
Proof.
  unfold localRecord, getLocalClusterInfo.
  destruct (localCluster pcm !! "id") as [id|]; [|by eexists].
  destruct (localCluster pcm !! "name") as [name|]; [|by eexists].
  done.
Qed.

Lemma populateLocal_view (e : Env) (pcm : PrometheusClusterMap)
    (m : gmap string ptr) (h : heap) (snapshot : gmap string ClusterInfo) :
  view m h = Some <$> snapshot →
  ∃ (m' : gmap string ptr) (ext : heap),
    populateLocal e pcm m h = Some (m', h ++ ext)
    ∧ view m' (h ++ ext) = Some <$> withLocal e pcm snapshot.
Proof.
  intros Hv. unfold populateLocal, withLocal.
  assert (m !! GetClusterID e = None ↔ snapshot !! GetClusterID e = None) as Hdom.
  { apply (f_equal (.!! GetClusterID e)) in Hv. unfold view in Hv.
    rewrite !lookup_fmap in Hv.
    destruct (m !! GetClusterID e), (snapshot !! GetClusterID e);
      simpl in Hv; split; intros; congruence. }
  destruct (m !! GetClusterID e) as [p|] eqn:Hm.
  { destruct (snapshot !! GetClusterID e) eqn:Hs.
    - exists m, []. by rewrite app_nil_r.
    - discriminate (proj2 Hdom eq_refl). }
  rewrite (proj1 Hdom eq_refl).
  pose proof (getLocalClusterInfo_localRecord pcm h) as Hlocal.
  destruct (localRecord (localCluster pcm)) as [ci|].
  - exists (<[ID ci := Some (length h)]> m), [ci].
    rewrite (bind_Some _ _ _ _ _ Hlocal).
    unfold bind, load, ret. rewrite lookup_app_r, Nat.sub_diag by done. simpl.
    split; [done|]. by apply view_enter.
  - destruct Hlocal as [msg Hlocal]. exists m, [].
    rewrite (bind_Some _ _ _ _ _ Hlocal), app_nil_r. done.
Qed.

Lemma Retry_success_at (f : nat → iface * error) (result : iface)
    (attempts : nat) :
  ∀ first n : nat,
    n < attempts →
    (∀ k, k < n → (f (first + k)).2 ≠ None) →
    f (first + n) = (result, None) →
    Retry f attempts first = (result, None).
Proof.
  induction attempts as [|r IH]; intros first n Hn Hfail Hok; [lia|].
  simpl. destruct n as [|n].
  - rewrite Nat.add_0_r in Hok. by rewrite Hok.
  - pose proof (Hfail 0 ltac:(lia)) as H0. rewrite Nat.add_0_r in H0.
    destruct (f first) as [res [msg|]]; [|done].
    destruct r as [|r']; [lia|].
    apply (IH (S first) n); [lia| |].
    + intros k Hk. replace (S first + k) with (first + S k) by lia.
      apply Hfail. lia.
    + by replace (S first + n) with (first + S n) by lia.
Qed.

Lemma loadResults_fresh (rows : list QueryResult) :
  ∀ (m m' : gmap string ptr) (h h' : heap),
    loadResults rows m h = Some (m', h') →
    ∀ id p, m' !! id = Some p →
            m !! id = Some p ∨ ∃ a, p = Some a ∧ length h ≤ a.
Proof.
  induction rows as [|row rows IH]; intros m m' h h' Hrun id p Hid.
  - injection Hrun as <- <-. by left.
  - simpl in Hrun. unfold bind in Hrun. rewrite loadResult_rowInfo in Hrun.
    destruct (rowInfo row) as [ci|]; [|by apply (IH _ _ _ _ Hrun)].
    destruct (IH _ _ _ _ Hrun id p Hid) as [Hm | (a & -> & Ha)].
    + rewrite lookup_insert in Hm. case_decide; [|by left].
      injection Hm as <-. right. by eexists.
    + right. exists a. split; [done|]. rewrite length_app in Ha. lia.
Qed.

(** Loading rows and looking after the local cluster: the snapshot of the
    rows with the local record, made of new records only. *)
Lemma loadRows_local (e : Env) (pcm : PrometheusClusterMap)
    (qr : list QueryResult) (h : heap) :
  ∃ (updated : gmap string ptr) (ext : heap),
    (clusters <- loadResults qr ∅ ;;
     clusters <- populateLocal e pcm clusters ;;
     ret (clusters, @None string)) h = Some ((updated, None), h ++ ext)
    ∧ view updated (h ++ ext) = Some <$> withLocal e pcm (rowsSnapshot qr)
    ∧ (∀ id p, updated !! id = Some p → ∃ a, p = Some a ∧ length h ≤ a).
Proof.
  destruct (loadResults_view qr ∅ h ∅ (view_empty h)) as (m1 & ext1 & Hrun1 & Hv1).
  destruct (populateLocal_view e pcm m1 _ _ Hv1) as (m2 & ext2 & Hrun2 & Hv2).
  exists m2, (ext1 ++ ext2). rewrite app_assoc.
  unfold bind. rewrite Hrun1, Hrun2.
  split; [done|]. split; [done|].
  intros id p Hid.
  assert (m1 !! id = Some p ∨ ∃ a, p = Some a ∧ length (h ++ ext1) ≤ a) as [Hm1|Hnew].
  { revert Hrun2. unfold populateLocal.
    destruct (m1 !! GetClusterID e); [intros [= <- _]; by left|].
    pose proof (getLocalClusterInfo_localRecord pcm (h ++ ext1)) as Hlocal.
    destruct (localRecord (localCluster pcm)) as [ci|].
    - rewrite (bind_Some _ _ _ _ _ Hlocal). unfold bind, load, ret.
      rewrite lookup_app_r, Nat.sub_diag by done. simpl.
      intros [= <- _]. rewrite lookup_insert in Hid. case_decide; [|by left].
      injection Hid as <-. right. by eexists.
    - destruct Hlocal as [msg Hlocal]. rewrite (bind_Some _ _ _ _ _ Hlocal).
      intros [= <- _]. by left. }
  - destruct (loadResults_fresh _ _ _ _ _ Hrun1 id p Hm1) as [He|Hf]; [|done].
    by rewrite lookup_empty in He.
  - destruct Hnew as (a & -> & Ha). exists a. split; [done|].
    rewrite length_app in Ha. lia.
Qed.

(** A refresh whose query returns rows at one of its attempts puts in place
    the snapshot of those rows with the local cluster looked after. *)
Lemma refreshClusters_success (e : Env) (pcm : PrometheusClusterMap) (h : heap)
    (n : nat) (qr : list QueryResult)
    (query := clusterInfoQuery (if IsThanos (client pcm) then QueryOffset e else "")) :
  n < LoadRetries →
  (∀ k, k < n → (QuerySync (client pcm) query k).2 ≠ None) →
  QuerySync (client pcm) query n = (Rows qr, None) →
  ∃ (updated : gmap string ptr) (ext : heap),
    refreshClusters e pcm h
    = Some ({| client := client pcm; clusters := updated;
               localCluster := localCluster pcm |}, h ++ ext)
    ∧ view updated (h ++ ext) = Some <$> withLocal e pcm (rowsSnapshot qr).
Proof.
  intros Hn Hfail Hok.
  pose proof (Retry_success_at _ _ _ 0 n Hn Hfail Hok) as Hretry.
  destruct (loadRows_local e pcm qr h) as (updated & ext & Hrun & Hv & _).
  exists updated, ext. unfold refreshClusters, loadClusters. fold query.
  rewrite Hretry. by rewrite (bind_Some _ _ _ _ _ Hrun).
Qed.

(** Whatever the query returns, a refresh does not panic and only adds
    records: the registry after it is the one before, or is made of new
    records only. *)
Lemma refreshClusters_records (e : Env) (pcm : PrometheusClusterMap) (h : heap) :
  ∃ (pcm' : PrometheusClusterMap) (ext : heap),
    refreshClusters e pcm h = Some (pcm', h ++ ext)
    ∧ (pcm' = pcm
       ∨ ∀ id p, clusters pcm' !! id = Some p → ∃ a, p = Some a ∧ length h ≤ a).
Proof.
  unfold refreshClusters, loadClusters.
  destruct (Retry _ _ _) as [[qr|] [msg|]].
  - exists pcm, []. rewrite app_nil_r. split; [done|by left].
  - destruct (loadRows_local e pcm qr h) as (updated & ext & Hrun & _ & Hfresh).
    eexists _, ext. rewrite (bind_Some _ _ _ _ _ Hrun). split; [done|by right].
  - exists pcm, []. rewrite app_nil_r. split; [done|by left].
  - eexists _, []. rewrite app_nil_r. split; [done|]. right.
    intros id p Hid. simpl in Hid. by rewrite lookup_empty in Hid.
Qed.

Section RefreshSuccess.

Variables (e : Env) (pcm : PrometheusClusterMap) (h : heap).
Variables (n : nat) (qr : list QueryResult).

Let query : string :=
  clusterInfoQuery (if IsThanos (client pcm) then QueryOffset e else "").

(** The attempt [n] is the first without error, and it returns the rows. *)
Hypothesis attempt_in_time : n < LoadRetries.
Hypothesis attempts_before_fail :
  ∀ k, k < n → (QuerySync (client pcm) query k).2 ≠ None.
Hypothesis attempt_returns_rows : QuerySync (client pcm) query n = (Rows qr, None).

(** X6: a refresh whose query returns rows, at the first attempt or after
    failed ones, replaces the whole snapshot: the new one is the snapshot of
    the rows with the local cluster looked after, whatever the registry held
    before, and an id that neither the rows nor the local record carry is
    not in it. *)
Theorem refresh_replaces_whole_snapshot :
  ∃ (updated : gmap string ptr) (ext : heap),
    refreshClusters e pcm h
    = Some ({| client := client pcm; clusters := updated;
               localCluster := localCluster pcm |}, h ++ ext)
    ∧ view updated (h ++ ext) = Some <$> withLocal e pcm (rowsSnapshot qr)
    ∧ (∀ id,
         (∀ row, row ∈ qr → row !! "id" ≠ Some id) →
         localCluster pcm !! "id" ≠ Some id →
         updated !! id = None).
Proof.
  destruct (refreshClusters_success e pcm h n qr
              attempt_in_time attempts_before_fail attempt_returns_rows)
    as (updated & ext & Hrun & Hv).
  exists updated, ext. split; [done|]. split; [done|].
  intros id Hrows Hlocal. apply (f_equal (.!! id)) in Hv. unfold view in Hv.
  rewrite !lookup_fmap in Hv.
  assert (withLocal e pcm (rowsSnapshot qr) !! id = None) as Hnone.
  { assert (rowsSnapshot qr !! id = None) as Hs.
    { destruct (rowsSnapshot qr !! id) as [ci|] eqn:Hs; [|done].
      destruct (foldl_enterRow_origin _ _ _ _ Hs) as [He | (row & Hin & Hrow & Hci)].
      - by rewrite lookup_empty in He.
      - destruct (Hrows row Hin). by rewrite (rowInfo_id _ _ Hrow), Hci. }
    unfold withLocal. destruct (rowsSnapshot qr !! GetClusterID e); [done|].
    unfold localRecord.
    destruct (localCluster pcm !! "id") as [lid|] eqn:Hlid; [|done].
    destruct (localCluster pcm !! "name"); [|done].
    rewrite lookup_insert_ne; [done|]. simpl. congruence. }
  rewrite Hnone in Hv. by destruct (updated !! id).
Qed.

(** X7: a local cluster that cannot be looked up does not fail the refresh:
    when the local provider's answer lacks its id or its name, or when the
    rows already carry the process's cluster id, the new snapshot is the
    snapshot of the rows. *)
Theorem refresh_without_local_record :
  is_Some (rowsSnapshot qr !! GetClusterID e)
  ∨ localCluster pcm !! "id" = None ∨ localCluster pcm !! "name" = None →
  ∃ (updated : gmap string ptr) (ext : heap),
    refreshClusters e pcm h
    = Some ({| client := client pcm; clusters := updated;
               localCluster := localCluster pcm |}, h ++ ext)
    ∧ view updated (h ++ ext) = Some <$> rowsSnapshot qr.
Proof.
  intros Hcase.
  destruct (refreshClusters_success e pcm h n qr
              attempt_in_time attempts_before_fail attempt_returns_rows)
    as (updated & ext & Hrun & Hv).
  exists updated, ext. split; [done|]. rewrite Hv. f_equal.
  unfold withLocal, localRecord.
  destruct Hcase as [[ci ->] | [-> | ->]]; [done| |].
  - by destruct (rowsSnapshot qr !! GetClusterID e).
  - by destruct (rowsSnapshot qr !! GetClusterID e), (localCluster pcm !! "id").
Qed.

(** X8: the local record enters the snapshot under the id the local provider
    reports, not under the process's cluster id that was looked for: it
    takes the place of a row of that id, and when the two ids differ the
    process's cluster id stays absent from the snapshot. *)
Theorem refresh_local_record_under_its_own_id (lid name : string) :
  rowsSnapshot qr !! GetClusterID e = None →
  localCluster pcm !! "id" = Some lid →
  localCluster pcm !! "name" = Some name →
  ∃ (updated : gmap string ptr) (ext : heap),
    refreshClusters e pcm h
    = Some ({| client := client pcm; clusters := updated;
               localCluster := localCluster pcm |}, h ++ ext)
    ∧ view updated (h ++ ext) !! lid
      = Some (Some {| ID := lid; Name := name;
                      Profile := default "" (localCluster pcm !! "clusterProfile");
                      Provider := default "" (localCluster pcm !! "provider");
                      Provisioner := default "" (localCluster pcm !! "provisioner") |})
    ∧ (∀ id, id ≠ lid →
         view updated (h ++ ext) !! id = Some <$> rowsSnapshot qr !! id)
    ∧ (lid ≠ GetClusterID e → updated !! GetClusterID e = None).
Proof.
  intros Habsent Hid Hname.
  destruct (refreshClusters_success e pcm h n qr
              attempt_in_time attempts_before_fail attempt_returns_rows)
    as (updated & ext & Hrun & Hv).
  exists updated, ext. split; [done|].
  assert (withLocal e pcm (rowsSnapshot qr)
          = <[lid := {| ID := lid; Name := name;
                        Profile := default "" (localCluster pcm !! "clusterProfile");
                        Provider := default "" (localCluster pcm !! "provider");
                        Provisioner := default "" (localCluster pcm !! "provisioner") |}]>
              (rowsSnapshot qr)) as Hw.
  { unfold withLocal, localRecord. by rewrite Habsent, Hid, Hname. }
  rewrite Hv, Hw. split; [by rewrite lookup_fmap, lookup_insert_eq|]. split.
  - intros id Hne. by rewrite !lookup_fmap, lookup_insert_ne.
  - intros Hne. apply (f_equal (.!! GetClusterID e)) in Hv.
    rewrite Hw in Hv. unfold view in Hv.
    rewrite !lookup_fmap, lookup_insert_ne, Habsent in Hv by done.
    by destruct (updated !! GetClusterID e).
Qed.

End RefreshSuccess.

(** A client whose second attempt returns one row without id and one
    complete row, after a first attempt that fails. *)
Definition flakyClient : Client :=
  {| IsThanos := false;
     QuerySync := λ _ attempt,
       match attempt with
       | 0 => (Other, Some "connection refused")
       | _ => (Rows [rowWithoutID; rowComplete], None)
       end |}.

(** A registry of one stale entry whose local provider calls itself
    "local-1". *)
Definition staleCluster : PrometheusClusterMap :=
  {| client := flakyClient; clusters := {[ "old" := Some 0 ]};
     localCluster := {[ "id" := "local-1"; "name" := "here" ]} |}.

(** The same registry with a local provider that has no name to give. *)
Definition namelessLocal : PrometheusClusterMap :=
  {| client := flakyClient; clusters := {[ "old" := Some 0 ]};
     localCluster := {[ "id" := "local-1" ]} |}.

Lemma refresh_replaces_whole_snapshot_witness :
  ∃ (updated : gmap string ptr) (ext : heap),
    refreshClusters localEnv staleCluster oneCell
    = Some ({| client := client staleCluster; clusters := updated;
               localCluster := localCluster staleCluster |}, oneCell ++ ext)
    ∧ view updated (oneCell ++ ext)
      = Some <$> withLocal localEnv staleCluster
                   (rowsSnapshot [rowWithoutID; rowComplete])
    ∧ (∀ id,
         (∀ row, row ∈ [rowWithoutID; rowComplete] → row !! "id" ≠ Some id) →
         localCluster staleCluster !! "id" ≠ Some id →
         updated !! id = None).
Proof.
  apply (refresh_replaces_whole_snapshot localEnv staleCluster oneCell 1
           [rowWithoutID; rowComplete]).
  - unfold LoadRetries. lia.
  - intros k Hk. assert (k = 0) as -> by lia. simpl. discriminate.
  - reflexivity.
Defined.

Lemma refresh_without_local_record_witness :
  ∃ (updated : gmap string ptr) (ext : heap),
    refreshClusters localEnv namelessLocal oneCell
    = Some ({| client := client namelessLocal; clusters := updated;
               localCluster := localCluster namelessLocal |}, oneCell ++ ext)
    ∧ view updated (oneCell ++ ext)
      = Some <$> rowsSnapshot [rowWithoutID; rowComplete].
Proof.
  apply (refresh_without_local_record localEnv namelessLocal oneCell 1
           [rowWithoutID; rowComplete]).
  - unfold LoadRetries. lia.
  - intros k Hk. assert (k = 0) as -> by lia. simpl. discriminate.
  - reflexivity.
  - right. right. reflexivity.
Defined.

Lemma refresh_local_record_under_its_own_id_witness :
  ∃ (updated : gmap string ptr) (ext : heap),
    refreshClusters localEnv staleCluster oneCell
    = Some ({| client := client staleCluster; clusters := updated;
               localCluster := localCluster staleCluster |}, oneCell ++ ext)
    ∧ view updated (oneCell ++ ext) !! "local-1"
      = Some (Some {| ID := "local-1"; Name := "here";
                      Profile := default "" (localCluster staleCluster !! "clusterProfile");
                      Provider := default "" (localCluster staleCluster !! "provider");
                      Provisioner := default "" (localCluster staleCluster !! "provisioner") |})
    ∧ (∀ id, id ≠ "local-1" →
         view updated (oneCell ++ ext) !! id
         = Some <$> rowsSnapshot [rowWithoutID; rowComplete] !! id)
    ∧ ("local-1" ≠ GetClusterID localEnv → updated !! GetClusterID localEnv = None).
Proof.
  apply (refresh_local_record_under_its_own_id localEnv staleCluster oneCell 1
           [rowWithoutID; rowComplete]).
  - unfold LoadRetries. lia.
  - intros k Hk. assert (k = 0) as -> by lia. simpl. discriminate.
  - reflexivity.
  - reflexivity.
  - reflexivity.
  - reflexivity.
Defined.

Example refresh_of_staleCluster :
  refreshClusters localEnv staleCluster oneCell
  = Some ({| client := flakyClient;
             clusters := {[ "c-1" := Some 1; "local-1" := Some 2 ]};
             localCluster := localCluster staleCluster |},
          oneCell ++ [ {| ID := "c-1"; Name := "prod"; Profile := "";
                          Provider := "GCP"; Provisioner := "" |};
                       {| ID := "local-1"; Name := "here"; Profile := "";
                          Provider := ""; Provisioner := "" |} ]).
Proof. vm_compute. reflexivity. Qed.

(** X9: a record that [InfoFor] has returned stays as it is through any
    later refresh, failed or not, and the refreshed registry never hands
    that record out as its own. *)
Theorem clone_survives_refresh (e : Env) (pcm : PrometheusClusterMap)
    (clusterID : string) (h h1 : heap) (a : addr) :
  registry_ok (clusters pcm) h →
  InfoFor pcm clusterID h = Some (Some a, h1) →
  ∃ (ci : ClusterInfo) (pcm' : PrometheusClusterMap) (ext : heap),
    h1 !! a = Some ci
    ∧ view (clusters pcm) h !! clusterID = Some (Some ci)
    ∧ refreshClusters e pcm h1 = Some (pcm', h1 ++ ext)
    ∧ (h1 ++ ext) !! a = Some ci
    ∧ (∀ id, clusters pcm' !! id ≠ Some (Some a)).
Proof.
  intros Hok. unfold InfoFor.
  destruct (clusters pcm !! clusterID) as [p|] eqn:Hp; [|done].
  destruct (Hok _ _ Hp) as (a0 & ci & -> & Ha0 & _).
  rewrite (Clone_copies _ _ _ Ha0). intros [= <- <-].
  destruct (refreshClusters_records e pcm (h ++ [ci])) as (pcm' & ext & Hrun & Hrec).
  exists ci, pcm', ext.
  assert ((h ++ [ci]) !! length h = Some ci) as Hcell.
  { by rewrite lookup_app_r, Nat.sub_diag. }
  split; [done|]. split.
  { unfold view. rewrite lookup_fmap, Hp. simpl. by rewrite Ha0. }
  split; [done|]. split; [by apply lookup_app_l_Some|].
  intros id Hid. destruct Hrec as [-> | Hfresh].
  - destruct (Hok _ _ Hid) as (a1 & ci1 & [= <-] & Ha1 & _).
    apply lookup_lt_Some in Ha1. lia.
  - destruct (Hfresh _ _ Hid) as (a1 & [= <-] & Ha1).
    rewrite length_app in Ha1. simpl in Ha1. lia.
Qed.

Lemma clone_survives_refresh_witness :
  ∃ (ci : ClusterInfo) (pcm' : PrometheusClusterMap) (ext : heap),
    (oneCell ++ oneCell) !! 1 = Some ci
    ∧ view (clusters oneCluster) oneCell !! "c-1" = Some (Some ci)
    ∧ refreshClusters localEnv oneCluster (oneCell ++ oneCell)
      = Some (pcm', (oneCell ++ oneCell) ++ ext)
    ∧ ((oneCell ++ oneCell) ++ ext) !! 1 = Some ci
    ∧ (∀ id, clusters pcm' !! id ≠ Some (Some 1)).
Proof.
  apply (clone_survives_refresh localEnv oneCluster "c-1" oneCell
           (oneCell ++ oneCell) 1 registry_ok_oneCluster).
  reflexivity.
Defined.

(** *** Reading a refreshed registry *)

Lemma view_record (m : gmap string ptr) (h : heap) (id : string)
    (ci : ClusterInfo) :
  view m h !! id = Some (Some ci) →
  ∃ a : addr, m !! id = Some (Some a) ∧ h !! a = Some ci.
Proof.
  unfold view. rewrite lookup_fmap.
  destruct (m !! id) as [[a|]|]; simpl; try done.
  intros [= Ha]. by exists a.
Qed.

(** X23: after a refresh whose query returned rows, the accessors answer from
    the new snapshot: for an id of it, [NameFor] returns the name of its
    record, [NameIDFor] returns "name/id", or the bare id for an empty name,
    and [InfoFor] returns a copy of the record. *)
Theorem accessors_after_refresh (e : Env) (pcm : PrometheusClusterMap)
    (h : heap) (n : nat) (qr : list QueryResult) (id : string) (ci : ClusterInfo) :
  n < LoadRetries →
  (∀ k, k < n →
     (QuerySync (client pcm)
        (clusterInfoQuery (if IsThanos (client pcm) then QueryOffset e else ""))
        k).2 ≠ None) →
  QuerySync (client pcm)
    (clusterInfoQuery (if IsThanos (client pcm) then QueryOffset e else "")) n
  = (Rows qr, None) →
  withLocal e pcm (rowsSnapshot qr) !! id = Some ci →
  ∃ (pcm' : PrometheusClusterMap) (h' : heap),
    refreshClusters e pcm h = Some (pcm', h')
    ∧ NameFor pcm' id h' = Some (Name ci, h')
    ∧ NameIDFor pcm' id h'
      = Some (if decide (Name ci = "") then id else Name ci +:+ String "/" id, h')
    ∧ InfoFor pcm' id h' = Some (Some (length h'), h' ++ [ci]).
Proof.
  intros Hn Hfail Hok Hid.
  destruct (refreshClusters_success e pcm h n qr Hn Hfail Hok)
    as (updated & ext & Hrun & Hv).
  eexists _, _. split; [exact Hrun|].
  assert (view updated (h ++ ext) !! id = Some (Some ci)) as Hrec.
  { by rewrite Hv, lookup_fmap, Hid. }
  apply view_record in Hrec as (a & Ha & Hcell).
  split; [|split].
  - unfold NameFor. simpl. rewrite Ha.
    by rewrite (bind_Some _ _ _ _ _ (load_Some _ _ _ Hcell)).
  - by apply (NameIDFor_known _ _ _ a).
  - unfold InfoFor. simpl. rewrite Ha. by apply Clone_copies.
Qed.

Lemma accessors_after_refresh_witness :
  ∃ (pcm' : PrometheusClusterMap) (h' : heap),
    refreshClusters localEnv staleCluster oneCell = Some (pcm', h')
    ∧ NameFor pcm' "c-1" h' = Some ("prod", h')
    ∧ NameIDFor pcm' "c-1" h' = Some ("prod/c-1", h')
    ∧ InfoFor pcm' "c-1" h'
      = Some (Some (length h'),
              h' ++ [ {| ID := "c-1"; Name := "prod"; Profile := "";
                         Provider := "GCP"; Provisioner := "" |} ]).
Proof.
  apply (accessors_after_refresh localEnv staleCluster oneCell 1
           [rowWithoutID; rowComplete] "c-1"
           {| ID := "c-1"; Name := "prod"; Profile := "";
              Provider := "GCP"; Provisioner := "" |}).
  - unfold LoadRetries. lia.
  - intros k Hk. assert (k = 0) as -> by lia. simpl. discriminate.
  - reflexivity.
  - reflexivity.
Defined.

(** *** Every state of a registry *)

(** X24: whatever the queries and the local provider answer, and however
    many refreshes have run since [NewClusterMap], no refresh panics and the
    registry never holds a nil or dangling pointer: every entry points to a
    record whose ID is the entry's key, so that for every id [NameFor] and
    [NameIDFor] return without panic and [InfoFor] returns nil or a record of
    that ID. *)
Theorem registry_sound_in_every_state (client0 : Client)
    (lcip0 : gmap string string)
    (ticks : list (Env * Client * gmap string string)) (h : heap) :
  ∃ (pcm : PrometheusClusterMap) (ext : heap),
    refreshLoop ticks (NewClusterMap client0 lcip0) h = Some (pcm, h ++ ext)
    ∧ registry_ok (clusters pcm) (h ++ ext)
    ∧ (∀ id, ∃ name nameID,
         NameFor pcm id (h ++ ext) = Some (name, h ++ ext)
         ∧ NameIDFor pcm id (h ++ ext) = Some (nameID, h ++ ext))
    ∧ (∀ id a h', InfoFor pcm id (h ++ ext) = Some (Some a, h') →
                  ∃ ci, h' !! a = Some ci ∧ ID ci = id).
Proof.
  assert (∀ ticks pcm h,
            registry_ok (clusters pcm) h →
            ∃ pcm' ext, refreshLoop ticks pcm h = Some (pcm', h ++ ext)
                        ∧ registry_ok (clusters pcm') (h ++ ext)) as Hloop.
  { clear. induction ticks as [|[[e c] l] ticks IH]; intros pcm h Hok.
    - exists pcm, []. by rewrite app_nil_r.
    - simpl.
      destruct (refreshClusters_registry_ok e
                  {| client := c; clusters := clusters pcm; localCluster := l |}
                  h Hok) as (pcm1 & ext1 & Hrun1 & Hok1).
      rewrite (bind_Some _ _ _ _ _ Hrun1).
      destruct (IH pcm1 _ Hok1) as (pcm2 & ext2 & Hrun2 & Hok2).
      exists pcm2, (ext1 ++ ext2). by rewrite app_assoc. }
  destruct (Hloop ticks (NewClusterMap client0 lcip0) h (registry_ok_empty h))
    as (pcm & ext & Hrun & Hok).
  exists pcm, ext. split; [done|]. split; [done|]. split.
  - intros id. unfold NameFor, NameIDFor.
    destruct (clusters pcm !! id) as [p|] eqn:Hp; [|by eexists _, _].
    destruct (Hok _ _ Hp) as (a & ci & -> & Ha & _).
    rewrite !(bind_Some _ _ _ _ _ (load_Some _ _ _ Ha)).
    exists (Name ci),
      (if decide (Name ci = "") then id else Name ci +:+ String "/" id).
    split; [done|]. by case_decide.
  - intros id a h'. unfold InfoFor.
    destruct (clusters pcm !! id) as [p|] eqn:Hp; [|done].
    destruct (Hok _ _ Hp) as (a0 & ci & -> & Ha & Hci).
    rewrite (Clone_copies _ _ _ Ha). intros [= <- <-]. exists ci.
    split; [|done]. by rewrite lookup_app_r, Nat.sub_diag.
Qed.

Example refreshLoop_two_ticks :
  ∃ pcm h',
    refreshLoop [ (localEnv, downClient, ∅);
                  (localEnv, flakyClient, {[ "id" := "local-1"; "name" := "here" ]}) ]
      (NewClusterMap downClient ∅) [] = Some (pcm, h')
    ∧ clusters pcm = {[ "c-1" := Some 0; "local-1" := Some 1 ]}.
Proof. eexists _, _. vm_compute. done. Qed.

End ClustersFacts.

(** ** The custom pricing provider *)

Module CloudFacts.
Import Cloud.

(** *** The rate table *)

Definition defaultPrice (p : CustomPricing.t) : NodePrice.t :=
  {| NodePrice.CPU := CustomPricing.CPU p; NodePrice.RAM := CustomPricing.RAM p;
     NodePrice.GPU := "" |}.

Definition spotPrice (p : CustomPricing.t) : NodePrice.t :=
  {| NodePrice.CPU := CustomPricing.SpotCPU p;
     NodePrice.RAM := CustomPricing.SpotRAM p; NodePrice.GPU := "" |}.

Definition gpuPrice (p : CustomPricing.t) : NodePrice.t :=
  {| NodePrice.CPU := CustomPricing.CPU p; NodePrice.RAM := CustomPricing.RAM p;
     NodePrice.GPU := CustomPricing.GPU p |}.

(** The table of exactly the three entries of a rebuild. *)
Definition threeEntries (p : CustomPricing.t) : gmap string NodePrice.t :=
  {[ "default" := defaultPrice p; "default,spot" := spotPrice p;
     "default,gpu" := gpuPrice p ]}.

Lemma DownloadPricingData_Ok (cp : CustomProvider.t) (p : CustomPricing.t) :
  GetCustomPricingData (CustomProvider.Config cp) = Ok p →
  DownloadPricingData cp
  = ({| CustomProvider.Pricing :=
          Some (<["default,gpu" := gpuPrice p]>
                  (<["default,spot" := spotPrice p]>
                     (<["default" := defaultPrice p]>
                        (default ∅ (CustomProvider.Pricing cp)))));
        CustomProvider.SpotLabel := CustomPricing.SpotLabel p;
        CustomProvider.SpotLabelValue := CustomPricing.SpotLabelValue p;
        CustomProvider.GPULabel := CustomPricing.GpuLabel p;
        CustomProvider.GPULabelValue := CustomPricing.GpuLabelValue p;
        CustomProvider.Config := CustomProvider.Config cp |}, None).
Proof.
  intros Hcfg. unfold DownloadPricingData. rewrite Hcfg.
  by destruct (CustomProvider.Pricing cp).
Qed.

Lemma DownloadPricingData_success (cp : CustomProvider.t) :
  (DownloadPricingData cp).2 = None →
  ∃ p, GetCustomPricingData (CustomProvider.Config cp) = Ok p.
Proof.
  unfold DownloadPricingData.
  destruct (GetCustomPricingData (CustomProvider.Config cp)) as [p|e]; [|done].
  intros _. by exists p.
Qed.

Lemma price_after_download (cp : CustomProvider.t) (p : CustomPricing.t)
    (k : string) :
  GetCustomPricingData (CustomProvider.Config cp) = Ok p →
  price (DownloadPricingData cp).1 k
  = if decide (k = "default,gpu") then Some (gpuPrice p)
    else if decide (k = "default,spot") then Some (spotPrice p)
    else if decide (k = "default") then Some (defaultPrice p)
    else price cp k.
Proof.
  intros Hcfg. rewrite (DownloadPricingData_Ok _ _ Hcfg). unfold price. simpl.
  rewrite !lookup_insert.
  repeat (case_decide; [by subst; repeat case_decide|]).
  repeat (case_decide; [by subst|]).
  by destruct (CustomProvider.Pricing cp).
Qed.

(** The reading of C4: a successful call leaves exactly the three entries,
    whatever the table held. *)
Definition full_replace (cp : CustomProvider.t) : Prop :=
  (DownloadPricingData cp).2 = None →
  ∃ p, GetCustomPricingData (CustomProvider.Config cp) = Ok p
       ∧ CustomProvider.Pricing (DownloadPricingData cp).1 = Some (threeEntries p).

Definition rateCard : CustomPricing.t :=
  {| CustomPricing.ClusterName := "onprem";
     CustomPricing.CPU := "0.05"; CustomPricing.SpotCPU := "0.015";
     CustomPricing.RAM := "0.01"; CustomPricing.SpotRAM := "0.003";
     CustomPricing.GPU := "0.90"; CustomPricing.Storage := "0.04";
     CustomPricing.ZoneNetworkEgress := "0.01";
     CustomPricing.RegionNetworkEgress := "0.01";
     CustomPricing.InternetNetworkEgress := "0.12";
     CustomPricing.FirstFiveForwardingRulesCost := "0.025";
     CustomPricing.AdditionalForwardingRuleCost := "0.010";
     CustomPricing.LBIngressDataCost := "0.01";
     CustomPricing.SpotLabel := "lifecycle";
     CustomPricing.SpotLabelValue := "spot";
     CustomPricing.GpuLabel := "gpu";
     CustomPricing.GpuLabelValue := "true" |}.

(** A provider that has not downloaded its prices yet. *)
Definition newProvider : CustomProvider.t :=
  {| CustomProvider.Pricing := None;
     CustomProvider.SpotLabel := ""; CustomProvider.SpotLabelValue := "";
     CustomProvider.GPULabel := ""; CustomProvider.GPULabelValue := "";
     CustomProvider.Config := {| customPricing := Some rateCard |} |}.

(** A provider whose table already holds an entry of another name. *)
Definition legacyProvider : CustomProvider.t :=
  {| CustomProvider.Pricing :=
       Some {[ "highmem" := {| NodePrice.CPU := "0.07"; NodePrice.RAM := "0.02";
                               NodePrice.GPU := "" |} ]};
     CustomProvider.SpotLabel := ""; CustomProvider.SpotLabelValue := "";
     CustomProvider.GPULabel := ""; CustomProvider.GPULabelValue := "";
     CustomProvider.Config := {| customPricing := Some rateCard |} |}.

(** C4, refuted as stated: the entry "highmem" of the table outlives the
    rebuild, which leaves four entries. *)
Lemma rebuild_keeps_other_entries : ¬ full_replace legacyProvider.
Proof.
  intros H. destruct (H eq_refl) as (p & _ & Htable).
  apply (f_equal (λ m, m ≫= (.!! "highmem"))) in Htable.
  vm_compute in Htable. discriminate Htable.
Qed.

(** C4, amended: every successful call to [DownloadPricingData] writes the
    three entries "default" (base CPU/RAM), "default,spot" (spot CPU/RAM)
    and "default,gpu" (base CPU/RAM plus the GPU rate) from the current
    configuration into the table, making the table first when it is nil,
    and leaves every other entry of the table as it was; so the table is
    exactly those three entries when it held no entry of another name
    before the call, and the "default" entry always exists after a
    successful rebuild. *)
Theorem DownloadPricingData_three_entries (cp : CustomProvider.t) :
  (DownloadPricingData cp).2 = None →
  ∃ p, GetCustomPricingData (CustomProvider.Config cp) = Ok p
    ∧ price (DownloadPricingData cp).1 "default" = Some (defaultPrice p)
    ∧ price (DownloadPricingData cp).1 "default,spot" = Some (spotPrice p)
    ∧ price (DownloadPricingData cp).1 "default,gpu" = Some (gpuPrice p)
    ∧ (∀ k, k ≠ "default" → k ≠ "default,spot" → k ≠ "default,gpu" →
         price (DownloadPricingData cp).1 k = price cp k)
    ∧ ((∀ k, is_Some (price cp k) →
          k = "default" ∨ k = "default,spot" ∨ k = "default,gpu") →
       CustomProvider.Pricing (DownloadPricingData cp).1 = Some (threeEntries p)).
Proof.
  intros Hok. destruct (DownloadPricingData_success _ Hok) as [p Hcfg].
  exists p. split; [done|].
  repeat split; try by rewrite (price_after_download _ _ _ Hcfg).
  - intros k H1 H2 H3. rewrite (price_after_download _ _ _ Hcfg).
    by rewrite !decide_False.
  - intros Hkeys. rewrite (DownloadPricingData_Ok _ _ Hcfg). simpl. f_equal.
    apply map_eq. intros k.
    unfold threeEntries. rewrite !lookup_insert, lookup_singleton.
    repeat case_decide; subst; try done.
    destruct (default ∅ (CustomProvider.Pricing cp) !! k) as [v|] eqn:Hk; [|done].
    destruct (Hkeys k) as [->|[->| ->]]; try done.
    unfold price. destruct (CustomProvider.Pricing cp); simpl in *; [by eexists|].
    by rewrite lookup_empty in Hk.
Qed.

Lemma DownloadPricingData_three_entries_witness :
  ∃ p, GetCustomPricingData (CustomProvider.Config newProvider) = Ok p
    ∧ price (DownloadPricingData newProvider).1 "default" = Some (defaultPrice p)
    ∧ price (DownloadPricingData newProvider).1 "default,spot" = Some (spotPrice p)
    ∧ price (DownloadPricingData newProvider).1 "default,gpu" = Some (gpuPrice p)
    ∧ (∀ k, k ≠ "default" → k ≠ "default,spot" → k ≠ "default,gpu" →
         price (DownloadPricingData newProvider).1 k = price newProvider k)
    ∧ ((∀ k, is_Some (price newProvider k) →
          k = "default" ∨ k = "default,spot" ∨ k = "default,gpu") →
       CustomProvider.Pricing (DownloadPricingData newProvider).1
       = Some (threeEntries p)).
Proof. apply (DownloadPricingData_three_entries newProvider). reflexivity. Defined.

Example rebuild_of_rateCard :
  CustomProvider.Pricing (DownloadPricingData newProvider).1
  = Some {[ "default" := NodePrice.mk "0.05" "0.01" "";
            "default,spot" := NodePrice.mk "0.015" "0.003" "";
            "default,gpu" := NodePrice.mk "0.05" "0.01" "0.90" ]}.
Proof. vm_compute. reflexivity. Qed.

(** *** Pricing a node *)

Lemma nodeTag_spot_gpu {K} `{Key K} (cp : CustomProvider.t) (key : K) :
  Features key = "default,spot" → GPUType key ≠ "" →
  is_Some (price cp "default,spot") →
  nodeTag cp key = ("default,spot,gpu", "1").
Proof.
  intros Hf Hg Hspot. unfold nodeTag. rewrite Hf.
  by rewrite decide_True, decide_True.
Qed.

Lemma NodePricing_missing {K} `{Key K} (cp : CustomProvider.t) (key : K) :
  price cp (nodeTag cp key).1 = None → NodePricing cp key = None.
Proof. unfold NodePricing. destruct (nodeTag cp key) as [k n]. simpl. by intros ->. Qed.

(** C1: for a key whose [Features] is "default,spot" and whose [GPUType] is
    not empty, [NodePricing] keeps the base tag "default,spot" whenever the
    table has it and appends ",gpu" without looking the result up, so the
    tag is "default,spot,gpu"; [DownloadPricingData] never makes an entry of
    that name; and after a successful rebuild of a table without it the
    lookup reads a field through a nil pointer: [NodePricing] panics. *)
Theorem spot_gpu_node_faults {K} `{Key K} (cp : CustomProvider.t) (key : K) :
  Features key = "default,spot" →
  GPUType key ≠ "" →
  (is_Some (price cp "default,spot") → (nodeTag cp key).1 = "default,spot,gpu")
  ∧ price (DownloadPricingData cp).1 "default,spot,gpu"
    = price cp "default,spot,gpu"
  ∧ ((DownloadPricingData cp).2 = None →
     price cp "default,spot,gpu" = None →
     (nodeTag (DownloadPricingData cp).1 key).1 = "default,spot,gpu"
     ∧ price (DownloadPricingData cp).1 "default,spot,gpu" = None
     ∧ NodePricing (DownloadPricingData cp).1 key = None).
Proof.
  intros Hf Hg.
  assert (price (DownloadPricingData cp).1 "default,spot,gpu"
          = price cp "default,spot,gpu") as Hsame.
  { unfold DownloadPricingData.
    destruct (GetCustomPricingData (CustomProvider.Config cp)) as [p|e];
      unfold price; simpl.
    - rewrite !lookup_insert_ne by done.
      by destruct (CustomProvider.Pricing cp).
    - by destruct (CustomProvider.Pricing cp). }
  split; [|split; [done|]].
  - intros Hspot. by rewrite (nodeTag_spot_gpu _ _ Hf Hg Hspot).
  - intros Hok Hnone. destruct (DownloadPricingData_success _ Hok) as [p Hcfg].
    assert (nodeTag (DownloadPricingData cp).1 key = ("default,spot,gpu", "1"))
      as Htag.
    { apply nodeTag_spot_gpu; [done..|].
      rewrite (price_after_download _ _ _ Hcfg). simpl. by eexists. }
    rewrite Hsame. split; [by rewrite Htag|]. split; [done|].
    apply NodePricing_missing. rewrite Htag. simpl. by rewrite Hsame.
Qed.

(** The key [GetKey] makes for a spot node with a GPU, after a rebuild from
    [rateCard]. *)
Definition spotGpuKey : customProviderKey.t :=
  GetKey (DownloadPricingData newProvider).1
    {[ "lifecycle" := "spot"; "gpu" := "nvidia-tesla-t4" ]}.

Lemma spot_gpu_node_faults_witness :
  (nodeTag (DownloadPricingData newProvider).1 spotGpuKey).1 = "default,spot,gpu"
  ∧ price (DownloadPricingData newProvider).1 "default,spot,gpu" = None
  ∧ NodePricing (DownloadPricingData newProvider).1 spotGpuKey = None.
Proof.
  apply (spot_gpu_node_faults newProvider spotGpuKey); [reflexivity|discriminate|..];
    reflexivity.
Defined.

Example NodePricing_plain_node :
  NodePricing (DownloadPricingData newProvider).1
    (GetKey (DownloadPricingData newProvider).1 {[ "zone" := "a" ]})
  = Some (Node.mk "0.05" "0.01" "" "", None).
Proof. vm_compute. reflexivity. Qed.

Example NodePricing_gpu_node :
  NodePricing (DownloadPricingData newProvider).1
    (GetKey (DownloadPricingData newProvider).1 {[ "gpu" := "nvidia-tesla-t4" ]})
  = Some (Node.mk "0.05" "0.01" "0.90" "1", None).
Proof. vm_compute. reflexivity. Qed.

Example NodePricing_spot_node :
  NodePricing (DownloadPricingData newProvider).1
    (GetKey (DownloadPricingData newProvider).1 {[ "lifecycle" := "spot" ]})
  = Some (Node.mk "0.015" "0.003" "" "", None).
Proof. vm_compute. reflexivity. Qed.

(** *** Updating the configuration *)

Section UpdateConfigFacts.

Variable Title : string → string.
Variable SetCustomPricingField :
  CustomPricing.t → string → string → CustomPricing.t * error.
Variable rangeOrder : gmap string jvalue → list (string * jvalue).






Lemma applyEntries_app (before after : list (string * jvalue))
    (c : CustomPricing.t) :
  applyEntries Title SetCustomPricingField (before ++ after) c
  = match applyEntries Title SetCustomPricingField before c with
    | (c', None) => applyEntries Title SetCustomPricingField after c'
    | (c', Some e) => (c', Some e)
    end.
Proof.
  revert c. induction before as [|[k v] before IH]; intros c; [done|].
  simpl. destruct v as [vstr| | | | |]; try done.
  destruct (SetCustomPricingField c (Title k) vstr) as [c' [e|]]; [done|].
  apply IH.
Qed.








End UpdateConfigFacts.

(** [strings.Title] on a string of ASCII bytes: the first letter of every
    word in upper case, where letters, digits and the underscore make the
    words.  Go works on runes, which this function does not follow on other
    strings: it is applied to ASCII keys only. *)
Definition asciiSeparator (c : ascii) : bool :=
  let n := N_of_ascii c in
  negb (((48 <=? n) && (n <=? 57)) || ((97 <=? n) && (n <=? 122))
        || ((65 <=? n) && (n <=? 90)) || (n =? 95))%N.

Definition asciiUpper (c : ascii) : ascii :=
  let n := N_of_ascii c in
  if ((97 <=? n) && (n <=? 122))%N then ascii_of_N (n - 32) else c.

Fixpoint asciiTitleFrom (prev : ascii) (s : string) : string :=
  match s with
  | EmptyString => EmptyString
  | String c s' =>
      String (if asciiSeparator prev then asciiUpper c else c)
             (asciiTitleFrom c s')
  end.

Definition asciiTitle (s : string) : string := asciiTitleFrom " " s.

(** A setter for the fields of the rate card that price a node; any other
    name is refused, and nothing is assigned then. *)
Definition setNodeRate (c : CustomPricing.t) (name value : string)
  : CustomPricing.t * error :=
  let set cpu spotCPU ram spotRAM gpu :=
    {| CustomPricing.ClusterName := CustomPricing.ClusterName c;
       CustomPricing.CPU := cpu; CustomPricing.SpotCPU := spotCPU;
       CustomPricing.RAM := ram; CustomPricing.SpotRAM := spotRAM;
       CustomPricing.GPU := gpu;
       CustomPricing.Storage := CustomPricing.Storage c;
       CustomPricing.ZoneNetworkEgress := CustomPricing.ZoneNetworkEgress c;
       CustomPricing.RegionNetworkEgress := CustomPricing.RegionNetworkEgress c;
       CustomPricing.InternetNetworkEgress := CustomPricing.InternetNetworkEgress c;
       CustomPricing.FirstFiveForwardingRulesCost :=
         CustomPricing.FirstFiveForwardingRulesCost c;
       CustomPricing.AdditionalForwardingRuleCost :=
         CustomPricing.AdditionalForwardingRuleCost c;
       CustomPricing.LBIngressDataCost := CustomPricing.LBIngressDataCost c;
       CustomPricing.SpotLabel := CustomPricing.SpotLabel c;
       CustomPricing.SpotLabelValue := CustomPricing.SpotLabelValue c;
       CustomPricing.GpuLabel := CustomPricing.GpuLabel c;
       CustomPricing.GpuLabelValue := CustomPricing.GpuLabelValue c |} in
  let cpu := CustomPricing.CPU c in
  let spotCPU := CustomPricing.SpotCPU c in
  let ram := CustomPricing.RAM c in
  let spotRAM := CustomPricing.SpotRAM c in
  let gpu := CustomPricing.GPU c in
  if decide (name = "CPU") then (set value spotCPU ram spotRAM gpu, None)
  else if decide (name = "SpotCPU") then (set cpu value ram spotRAM gpu, None)
  else if decide (name = "RAM") then (set cpu spotCPU value spotRAM gpu, None)
  else if decide (name = "SpotRAM") then (set cpu spotCPU ram value gpu, None)
  else if decide (name = "GPU") then (set cpu spotCPU ram spotRAM value, None)
  else (c, Some ("No such field: " +:+ name +:+ " in obj")).

(** Two orders in which a [range] may visit a map: the entries as the finite
    map lists them, and the other way round. *)
Definition listedOrder (a : gmap string jvalue) : list (string * jvalue) :=
  map_to_list a.

Definition reversedOrder (a : gmap string jvalue) : list (string * jvalue) :=
  reverse (map_to_list a).

(** An update of one good field and one unknown field. *)
Definition mixedUpdate : gmap string jvalue :=
  {[ "CPU" := JString "0.06"; "colour" := JString "blue" ]}.

(** An update of two good fields. *)
Definition goodUpdate : gmap string jvalue :=
  {[ "CPU" := JString "0.06"; "spotCPU" := JString "0.02" ]}.

Example reversedOrder_mixedUpdate :
  reversedOrder mixedUpdate
  = [("CPU", JString "0.06"); ("colour", JString "blue")]
  ∧ listedOrder mixedUpdate
    = [("colour", JString "blue"); ("CPU", JString "0.06")].
Proof. by vm_compute. Qed.




(** Visited the other way round, the same update fails at once and leaves
    the configuration as it was. *)
Example UpdateConfig_unknown_field_first :
  UpdateConfig asciiTitle setNodeRate listedOrder newProvider (Ok mixedUpdate) ""
  = (newProvider, Error "No such field: Colour in obj").
Proof. by vm_compute. Qed.

Example UpdateConfig_applies :
  ∃ cp' c,
    UpdateConfig asciiTitle setNodeRate listedOrder newProvider (Ok goodUpdate) ""
    = (cp', Ok c)
    ∧ CustomPricing.CPU c = "0.06" ∧ CustomPricing.SpotCPU c = "0.02"
    ∧ price cp' "default,spot" = Some (NodePrice.mk "0.02" "0.003" "").
Proof. eexists _, _. vm_compute. done. Qed.
(** *** The load-balancer cost *)

Import Float64Facts.

#[local] Set Warnings "-inexact-float".

(** The tiered formula in the words of the spec,
    [rate1 * min(rules,5) + rate2 * max(rules-5, 0) + ingressRate * dataGB],
    in float64 arithmetic. *)
Definition fmin (x y : float) : float := if (x <? y)%float then x else y.
Definition fmax (x y : float) : float := if (x <? y)%float then y else x.

Definition tieredFormula (rate1 rate2 ingressRate rules dataGB : float) : float :=
  (rate1 * fmin rules 5 + rate2 * fmax (rules - 5) 0 + ingressRate * dataGB)%float.

(** The error of [strconv.ParseFloat] for a string that is not a number:
    the message names the function and quotes the string. *)
Definition syntaxError (s : string) : string :=
  let quote := String (ascii_of_nat 34) EmptyString in
  "strconv.ParseFloat: parsing " +:+ quote +:+ s +:+ quote +:+ ": invalid syntax".

Definition digitValue (c : ascii) : option Z :=
  let n := Z.of_N (N_of_ascii c) in
  if ((48 <=? n) && (n <=? 57))%Z then Some (n - 48)%Z else None.

(** Reads digits with at most one point among them: the integer that the
    digits spell, how many digits there are, and how many of them come
    after the point. *)
Fixpoint readDecimal (s : string) (seenPoint : bool) (mantissa : Z)
    (digits decimals : nat) : option (Z * nat * nat) :=
  match s with
  | EmptyString => Some (mantissa, digits, decimals)
  | String c s' =>
      if decide (c = "."%char) then
        if seenPoint then None
        else readDecimal s' true mantissa digits decimals
      else
        match digitValue c with
        | Some d =>
            readDecimal s' seenPoint (10 * mantissa + d)%Z (S digits)
              (if seenPoint then S decimals else decimals)
        | None => None
        end
  end.

(** The binary64 number of an integer below 2^53, which it holds exactly. *)
Definition floatOfZ (n : Z) : float :=
  SF2Prim (binary_normalize prec emax n 0 false).

(** [strconv.ParseFloat(s, 64)] on the strings of the examples below: the
    string "Inf", unsigned decimals of at most 15 digits, and strings that
    are not numbers.  A decimal of at most 15 digits is the quotient of two
    integers that binary64 holds exactly, and its value is that quotient
    rounded once, to the nearest binary64 number.  A numeral with a sign,
    an exponent or more digits, which Go parses, is reported here as a
    syntax error: the function is applied to no such string. *)
Definition parseRate (s : string) : float * error :=
  if decide (s = "Inf") then (infinity, None)
  else
    match readDecimal s false 0 0 0 with
    | Some (mantissa, digits, decimals) =>
        if decide (0 < digits ≤ 15)%nat
        then ((floatOfZ mantissa / floatOfZ (10 ^ Z.of_nat decimals))%float, None)
        else (0%float, Some (syntaxError s))
    | None => (0%float, Some (syntaxError s))
    end.

Definition withIngressRate (rate : string) (c : CustomPricing.t) : CustomPricing.t :=
  {| CustomPricing.ClusterName := CustomPricing.ClusterName c;
     CustomPricing.CPU := CustomPricing.CPU c;
     CustomPricing.SpotCPU := CustomPricing.SpotCPU c;
     CustomPricing.RAM := CustomPricing.RAM c;
     CustomPricing.SpotRAM := CustomPricing.SpotRAM c;
     CustomPricing.GPU := CustomPricing.GPU c;
     CustomPricing.Storage := CustomPricing.Storage c;
     CustomPricing.ZoneNetworkEgress := CustomPricing.ZoneNetworkEgress c;
     CustomPricing.RegionNetworkEgress := CustomPricing.RegionNetworkEgress c;
     CustomPricing.InternetNetworkEgress := CustomPricing.InternetNetworkEgress c;
     CustomPricing.FirstFiveForwardingRulesCost :=
       CustomPricing.FirstFiveForwardingRulesCost c;
     CustomPricing.AdditionalForwardingRuleCost :=
       CustomPricing.AdditionalForwardingRuleCost c;
     CustomPricing.LBIngressDataCost := rate;
     CustomPricing.SpotLabel := CustomPricing.SpotLabel c;
     CustomPricing.SpotLabelValue := CustomPricing.SpotLabelValue c;
     CustomPricing.GpuLabel := CustomPricing.GpuLabel c;
     CustomPricing.GpuLabelValue := CustomPricing.GpuLabelValue c |}.

Definition withInternetEgress (rate : string) (c : CustomPricing.t)
  : CustomPricing.t :=
  {| CustomPricing.ClusterName := CustomPricing.ClusterName c;
     CustomPricing.CPU := CustomPricing.CPU c;
     CustomPricing.SpotCPU := CustomPricing.SpotCPU c;
     CustomPricing.RAM := CustomPricing.RAM c;
     CustomPricing.SpotRAM := CustomPricing.SpotRAM c;
     CustomPricing.GPU := CustomPricing.GPU c;
     CustomPricing.Storage := CustomPricing.Storage c;
     CustomPricing.ZoneNetworkEgress := CustomPricing.ZoneNetworkEgress c;
     CustomPricing.RegionNetworkEgress := CustomPricing.RegionNetworkEgress c;
     CustomPricing.InternetNetworkEgress := rate;
     CustomPricing.FirstFiveForwardingRulesCost :=
       CustomPricing.FirstFiveForwardingRulesCost c;
     CustomPricing.AdditionalForwardingRuleCost :=
       CustomPricing.AdditionalForwardingRuleCost c;
     CustomPricing.LBIngressDataCost := CustomPricing.LBIngressDataCost c;
     CustomPricing.SpotLabel := CustomPricing.SpotLabel c;
     CustomPricing.SpotLabelValue := CustomPricing.SpotLabelValue c;
     CustomPricing.GpuLabel := CustomPricing.GpuLabel c;
     CustomPricing.GpuLabelValue := CustomPricing.GpuLabelValue c |}.

(** A provider whose configured ingress rate is the string "Inf". *)
Definition unboundedIngress : CustomProvider.t :=
  {| CustomProvider.Pricing := None;
     CustomProvider.SpotLabel := ""; CustomProvider.SpotLabelValue := "";
     CustomProvider.GPULabel := ""; CustomProvider.GPULabelValue := "";
     CustomProvider.Config :=
       {| customPricing := Some (withIngressRate "Inf" rateCard) |} |}.

(** The reading of C7's middle part: when the three rates parse, the cost
    returned is the first-five-rule rate. *)
Definition returns_first_rate (ParseFloat : string → float * error)
    (cp : CustomProvider.t) : Prop :=
  ∀ cpricing fffrc afrc lbidc,
    GetCustomPricingData (CustomProvider.Config cp) = Ok cpricing →
    ParseFloat (CustomPricing.FirstFiveForwardingRulesCost cpricing) = (fffrc, None) →
    ParseFloat (CustomPricing.AdditionalForwardingRuleCost cpricing) = (afrc, None) →
    ParseFloat (CustomPricing.LBIngressDataCost cpricing) = (lbidc, None) →
    ∃ lb, LoadBalancerPricing ParseFloat cp = Ok lb ∧ same_number (Cost lb) fffrc.

(** C7, refuted as stated: with the rates "0.025", "0.010" and "Inf" the
    three fields parse and the cost returned is NaN, not 0.025. *)
Lemma infinite_ingress_rate_gives_nan :
  ¬ returns_first_rate parseRate unboundedIngress.
Proof.
  intros H.
  destruct (H _ 0.025%float 0.010%float infinity eq_refl eq_refl eq_refl eq_refl)
    as (lb & Hlb & Hsame).
  vm_compute in Hlb. injection Hlb as <-. destruct Hsame as [Heq | [Hz _]].
  - apply (f_equal is_nan) in Heq. vm_compute in Heq. discriminate Heq.
  - vm_compute in Hz. discriminate Hz.
Qed.

Section CostFacts.

Variable ParseFloat : string → float * error.

Lemma LoadBalancerPricing_config_error (cp : CustomProvider.t) (e : string) :
  GetCustomPricingData (CustomProvider.Config cp) = Error e →
  LoadBalancerPricing ParseFloat cp = Error e.
Proof. unfold LoadBalancerPricing. by intros ->. Qed.

Lemma totalCost_one_rule (fffrc afrc lbidc : float) :
  totalCost fffrc afrc lbidc 1 0 = (fffrc * 1 + lbidc * 0)%float.
Proof. reflexivity. Qed.

Lemma tieredFormula_one_rule (rate1 rate2 ingressRate : float) :
  tieredFormula rate1 rate2 ingressRate 1 0
  = (rate1 * 1 + rate2 * 0 + ingressRate * 0)%float.
Proof. reflexivity. Qed.

(** C7, amended: [LoadBalancerPricing] returns an error when any of the
    three rate fields fails to parse.  Otherwise it evaluates, in float64
    arithmetic and at the hard-coded inputs rules = 1 and dataGB = 0, the
    branch [rate1 * rules + ingressRate * dataGB] that its [if] takes for
    fewer than 5 rules (for 5 rules and more the branch is
    [rate1 * 5 + rate2 * (rules - 5) + ingressRate * dataGB]).  When the
    ingress rate is finite the cost is the first-five-rule rate, and
    when the additional-rule rate is finite too it is the value of the
    tiered formula [rate1 * min(rules,5) + rate2 * max(rules-5, 0) +
    ingressRate * dataGB], in both cases as a float64 number (the sign of a
    zero apart); when the ingress rate is an infinity or a NaN the cost
    is NaN. *)
Theorem LoadBalancerPricing_cost (cp : CustomProvider.t)
    (cpricing : CustomPricing.t) :
  GetCustomPricingData (CustomProvider.Config cp) = Ok cpricing →
  let fffrc := ParseFloat (CustomPricing.FirstFiveForwardingRulesCost cpricing) in
  let afrc := ParseFloat (CustomPricing.AdditionalForwardingRuleCost cpricing) in
  let lbidc := ParseFloat (CustomPricing.LBIngressDataCost cpricing) in
  (fffrc.2 ≠ None ∨ afrc.2 ≠ None ∨ lbidc.2 ≠ None →
   ∃ e, LoadBalancerPricing ParseFloat cp = Error e)
  ∧ (fffrc.2 = None → afrc.2 = None → lbidc.2 = None →
     LoadBalancerPricing ParseFloat cp
     = Ok {| Cost := totalCost fffrc.1 afrc.1 lbidc.1 1 0 |}
     ∧ totalCost fffrc.1 afrc.1 lbidc.1 1 0 = (fffrc.1 * 1 + lbidc.1 * 0)%float
     ∧ (is_finite lbidc.1 = true →
        same_number (totalCost fffrc.1 afrc.1 lbidc.1 1 0) fffrc.1)
     ∧ (is_finite lbidc.1 = true → is_finite afrc.1 = true →
        same_number (totalCost fffrc.1 afrc.1 lbidc.1 1 0)
          (tieredFormula fffrc.1 afrc.1 lbidc.1 1 0))
     ∧ (is_finite lbidc.1 = false →
        totalCost fffrc.1 afrc.1 lbidc.1 1 0 = nan))
  ∧ (∀ rate1 rate2 ingressRate rules dataGB,
       totalCost rate1 rate2 ingressRate rules dataGB
       = if (rules <? 5)%float
         then (rate1 * rules + ingressRate * dataGB)%float
         else (rate1 * 5 + rate2 * (rules - 5) + ingressRate * dataGB)%float).
Proof.
  intros Hcfg fffrc afrc lbidc. unfold LoadBalancerPricing. rewrite Hcfg.
  fold fffrc afrc lbidc.
  destruct fffrc as [r1 e1], afrc as [r2 e2], lbidc as [r3 e3]. simpl.
  split; [|split; [|done]].
  - intros Herr. destruct e1 as [msg|]; [by eexists|].
    destruct e2 as [msg|]; [by eexists|].
    destruct e3 as [msg|]; [by eexists|]. by destruct Herr as [?|[?|?]].
  - intros -> -> ->. split; [done|]. rewrite totalCost_one_rule.
    split; [done|].
    assert (is_finite r3 = true → same_number (r1 * 1 + r3 * 0)%float r1)
      as Hrate.
    { intros Hfin. destruct (mul_zero_finite _ Hfin) as [s Hs].
      rewrite <- (mul_one r1) at 2. by apply (add_zero _ _ s). }
    split; [done|]. split.
    + intros Hfin3 Hfin2. rewrite tieredFormula_one_rule.
      destruct (mul_zero_finite _ Hfin3) as [s3 Hs3].
      destruct (mul_zero_finite _ Hfin2) as [s2 Hs2].
      apply (same_number_trans _ (r1 * 1)%float); [by apply (add_zero _ _ s3)|].
      destruct (add_zero (r1 * 1) (r2 * 0) s2 Hs2) as [Heq | [Hz Hz1]].
      * destruct (add_zero (r1 * 1 + r2 * 0) (r3 * 0) s3 Hs3) as [Heq' | [Hz' Hz'']].
        -- left. by rewrite Heq', Heq.
        -- rewrite Heq in Hz''. by right.
      * destruct (add_zero (r1 * 1 + r2 * 0) (r3 * 0) s3 Hs3) as [Heq' | [Hz' _]].
        -- rewrite Heq'. by right.
        -- by right.
    + intros Hinf. by rewrite (mul_zero_not_finite _ Hinf), add_nan.
Qed.

End CostFacts.

Lemma LoadBalancerPricing_cost_witness :
  LoadBalancerPricing parseRate newProvider
  = Ok {| Cost := totalCost 0.025 0.010 0.01 1 0 |}.
Proof.
  apply (LoadBalancerPricing_cost parseRate newProvider rateCard eq_refl);
    reflexivity.
Defined.

(** The rates $0.025, $0.010 and $0.01/GB: one rule and no data cost
    0.025. *)
Example LoadBalancerPricing_of_rateCard :
  LoadBalancerPricing parseRate newProvider = Ok {| Cost := 0.025 |}.
Proof. vm_compute. reflexivity. Qed.

(** Seven rules would cost five at the first rate and two at the second. *)
Example totalCost_seven_rules :
  totalCost 0.025 0.010 0.01 7 0 = (5 * 0.025 + 2 * 0.010)%float.
Proof. vm_compute. reflexivity. Qed.

Example LoadBalancerPricing_parse_failure :
  LoadBalancerPricing parseRate
    {| CustomProvider.Pricing := None;
       CustomProvider.SpotLabel := ""; CustomProvider.SpotLabelValue := "";
       CustomProvider.GPULabel := ""; CustomProvider.GPULabelValue := "";
       CustomProvider.Config :=
         {| customPricing := Some (withIngressRate "free" rateCard) |} |}
  = Error (syntaxError "free").
Proof. vm_compute. reflexivity. Qed.

(** *** The table before, after and between rebuilds *)

(** X10: a provider whose table has no entry, as before its first
    [DownloadPricingData], cannot price any node: [NodePricing] panics for
    every key of every kind. *)
Theorem NodePricing_without_table {K} `{Key K} (cp : CustomProvider.t) (key : K) :
  (∀ k, price cp k = None) → NodePricing cp key = None.
Proof. intros Hempty. apply NodePricing_missing, Hempty. Qed.

Lemma NodePricing_without_table_witness :
  NodePricing newProvider (GetKey newProvider {[ "zone" := "a" ]}) = None.
Proof.
  apply (NodePricing_without_table newProvider (GetKey newProvider {[ "zone" := "a" ]})).
  intros k. reflexivity.
Defined.

Lemma three_inserts_twice (m : gmap string NodePrice.t) (d s g : NodePrice.t) :
  <["default,gpu" := g]> (<["default,spot" := s]> (<["default" := d]>
    (<["default,gpu" := g]> (<["default,spot" := s]> (<["default" := d]> m)))))
  = <["default,gpu" := g]> (<["default,spot" := s]> (<["default" := d]> m)).
Proof.
  apply map_eq. intros k. rewrite !lookup_insert. by repeat case_decide.
Qed.

(** X11: a second [DownloadPricingData] in a row changes nothing: it returns
    the provider and the error of the first. *)
Theorem DownloadPricingData_idempotent (cp : CustomProvider.t) :
  DownloadPricingData (DownloadPricingData cp).1 = DownloadPricingData cp.
Proof.
  destruct (GetCustomPricingData (CustomProvider.Config cp)) as [p|e] eqn:Hcfg.
  - rewrite (DownloadPricingData_Ok cp p Hcfg). simpl.
    rewrite (DownloadPricingData_Ok _ p) by done. simpl.
    by rewrite three_inserts_twice.
  - unfold DownloadPricingData. rewrite Hcfg. simpl. by rewrite Hcfg.
Qed.

(** X12: a [DownloadPricingData] that cannot fetch the configuration returns
    the error and keeps the prices in service: every entry of the table and
    the cached labels are as before (a nil table becomes an empty one), and
    [NodePricing] answers as before. *)
Theorem DownloadPricingData_failure_keeps_prices (cp : CustomProvider.t)
    (e : string) :
  GetCustomPricingData (CustomProvider.Config cp) = Error e →
  (DownloadPricingData cp).2 = Some e
  ∧ CustomProvider.Pricing (DownloadPricingData cp).1
    = Some (default ∅ (CustomProvider.Pricing cp))
  ∧ (∀ k, price (DownloadPricingData cp).1 k = price cp k)
  ∧ (∀ labels, GetKey (DownloadPricingData cp).1 labels = GetKey cp labels)
  ∧ (∀ {K} `{Key K} (key : K),
       NodePricing (DownloadPricingData cp).1 key = NodePricing cp key).
Proof.
  intros Hcfg.
  assert (DownloadPricingData cp
          = ({| CustomProvider.Pricing := Some (default ∅ (CustomProvider.Pricing cp));
                CustomProvider.SpotLabel := CustomProvider.SpotLabel cp;
                CustomProvider.SpotLabelValue := CustomProvider.SpotLabelValue cp;
                CustomProvider.GPULabel := CustomProvider.GPULabel cp;
                CustomProvider.GPULabelValue := CustomProvider.GPULabelValue cp;
                CustomProvider.Config := CustomProvider.Config cp |}, Some e))
    as Hrun.
  { unfold DownloadPricingData. rewrite Hcfg.
    by destruct (CustomProvider.Pricing cp). }
  assert (∀ k, price (DownloadPricingData cp).1 k = price cp k) as Hprice.
  { intros k. rewrite Hrun. unfold price. simpl.
    by destruct (CustomProvider.Pricing cp). }
  split; [by rewrite Hrun|]. split; [by rewrite Hrun|].
  split; [done|]. split; [by rewrite Hrun|].
  intros K HK key. unfold NodePricing, nodeTag. rewrite !Hprice. case_decide; by rewrite Hprice.
Qed.

(** A provider whose configuration cannot be loaded, with a table in
    service. *)
Definition unconfigured : CustomProvider.t :=
  {| CustomProvider.Pricing := CustomProvider.Pricing (DownloadPricingData newProvider).1;
     CustomProvider.SpotLabel := "lifecycle"; CustomProvider.SpotLabelValue := "spot";
     CustomProvider.GPULabel := "gpu"; CustomProvider.GPULabelValue := "true";
     CustomProvider.Config := {| customPricing := None |} |}.

Lemma DownloadPricingData_failure_keeps_prices_witness :
  (DownloadPricingData unconfigured).2
  = Some "custom pricing configuration unavailable"
  ∧ CustomProvider.Pricing (DownloadPricingData unconfigured).1
    = Some (default ∅ (CustomProvider.Pricing unconfigured))
  ∧ (∀ k, price (DownloadPricingData unconfigured).1 k = price unconfigured k)
  ∧ (∀ labels, GetKey (DownloadPricingData unconfigured).1 labels
               = GetKey unconfigured labels)
  ∧ (∀ {K} `{Key K} (key : K),
       NodePricing (DownloadPricingData unconfigured).1 key
       = NodePricing unconfigured key).
Proof.
  apply (DownloadPricingData_failure_keeps_prices unconfigured). reflexivity.
Defined.

(** *** Keys and the prices they get *)

(** X13: what a key of the custom provider says of a node.  The node is a
    spot node exactly when it carries the spot label with the configured
    value and that value is not empty; its GPU type is the value of its GPU
    label, so it has a GPU exactly when that label is present with a value
    that is not empty; the configured GPU label value is never looked at. *)
Theorem customProviderKey_reads_labels (key : customProviderKey.t) :
  (Features key = "default,spot" ↔
     customProviderKey.Labels key !! customProviderKey.SpotLabel key
     = Some (customProviderKey.SpotLabelValue key)
     ∧ customProviderKey.SpotLabelValue key ≠ "")
  ∧ (Features key ≠ "default,spot" → Features key = "default")
  ∧ (∀ t, GPUType key = t ∧ t ≠ "" ↔
          customProviderKey.Labels key !! customProviderKey.GPULabel key = Some t
          ∧ t ≠ "")
  ∧ (∀ gpuLabelValue,
       GPUType {| customProviderKey.SpotLabel := customProviderKey.SpotLabel key;
                  customProviderKey.SpotLabelValue := customProviderKey.SpotLabelValue key;
                  customProviderKey.GPULabel := customProviderKey.GPULabel key;
                  customProviderKey.GPULabelValue := gpuLabelValue;
                  customProviderKey.Labels := customProviderKey.Labels key |}
       = GPUType key).
Proof.
  simpl. unfold label. split; [|split; [|split]].
  - case_decide as Hspot.
    + split; [intros _|done]. destruct Hspot as [Hne Heq].
      destruct (customProviderKey.Labels key !! customProviderKey.SpotLabel key)
        as [v|]; simpl in *; [|done]. by subst.
    + split; [done|]. intros [Hl Hne]. destruct Hspot. by rewrite Hl.
  - by case_decide.
  - intros t.
    destruct (customProviderKey.Labels key !! customProviderKey.GPULabel key)
      as [v|]; split; intros [Heq Hne]; try done; split; congruence.
  - done.
Qed.

Section AfterRebuild.

Variables (cp : CustomProvider.t) (p : CustomPricing.t).
Variable labels : gmap string string.

Hypothesis config_fetched :
  GetCustomPricingData (CustomProvider.Config cp) = Ok p.

Let rebuilt : CustomProvider.t := (DownloadPricingData cp).1.
Let key : customProviderKey.t := GetKey rebuilt labels.

(** X14: after a successful rebuild, the keys the provider makes read the
    labels of the configuration just fetched, and a node that is not both a
    spot node and a GPU node is priced without panic: a plain node at the
    base CPU and RAM rates, a spot node at the spot rates, and a GPU node at
    the base rates plus the GPU rate, with "1" for its GPU count. *)
Theorem NodePricing_after_rebuild :
  (Features key = "default,spot" ↔
     labels !! CustomPricing.SpotLabel p = Some (CustomPricing.SpotLabelValue p)
     ∧ CustomPricing.SpotLabelValue p ≠ "")
  ∧ GPUType key = default "" (labels !! CustomPricing.GpuLabel p)
  ∧ (Features key ≠ "default,spot" → GPUType key = "" →
     NodePricing rebuilt key
     = Some ({| Node.VCPUCost := CustomPricing.CPU p;
                Node.RAMCost := CustomPricing.RAM p;
                Node.GPUCost := ""; Node.GPU := "" |}, None))
  ∧ (Features key = "default,spot" → GPUType key = "" →
     NodePricing rebuilt key
     = Some ({| Node.VCPUCost := CustomPricing.SpotCPU p;
                Node.RAMCost := CustomPricing.SpotRAM p;
                Node.GPUCost := ""; Node.GPU := "" |}, None))
  ∧ (Features key ≠ "default,spot" → GPUType key ≠ "" →
     NodePricing rebuilt key
     = Some ({| Node.VCPUCost := CustomPricing.CPU p;
                Node.RAMCost := CustomPricing.RAM p;
                Node.GPUCost := CustomPricing.GPU p; Node.GPU := "1" |}, None)).
Proof.
  pose proof (λ k, price_after_download cp p k config_fetched) as Hprice.
  fold rebuilt in Hprice.
  assert (customProviderKey.SpotLabel key = CustomPricing.SpotLabel p
          ∧ customProviderKey.SpotLabelValue key = CustomPricing.SpotLabelValue p
          ∧ customProviderKey.GPULabel key = CustomPricing.GpuLabel p
          ∧ customProviderKey.Labels key = labels) as (Hsl & Hsv & Hgl & Hl).
  { unfold key, rebuilt. by rewrite (DownloadPricingData_Ok _ _ config_fetched). }
  clearbody key rebuilt.
  destruct (customProviderKey_reads_labels key) as (Hspot & Hdefault & _ & _).
  rewrite Hsl, Hsv, Hl in Hspot.
  split; [done|]. split.
  { simpl. rewrite Hgl, Hl. by destruct (labels !! CustomPricing.GpuLabel p). }
  clear Hspot Hsl Hsv Hgl Hl.
  repeat split.
  - intros Hns Hg. unfold NodePricing, nodeTag.
    rewrite (Hdefault Hns), Hg, !Hprice. simpl. by rewrite Hprice.
  - intros Hs Hg. unfold NodePricing, nodeTag.
    rewrite Hs, Hg, !Hprice. simpl. by rewrite Hprice.
  - intros Hns Hg. unfold NodePricing, nodeTag.
    rewrite (Hdefault Hns), !Hprice. simpl.
    rewrite decide_True by done. simpl. by rewrite Hprice.
Qed.

End AfterRebuild.

Lemma NodePricing_after_rebuild_witness :
  (Features (GetKey (DownloadPricingData newProvider).1 {[ "gpu" := "t4" ]})
   = "default,spot" ↔
     ({[ "gpu" := "t4" ]} : gmap string string) !! CustomPricing.SpotLabel rateCard
     = Some (CustomPricing.SpotLabelValue rateCard)
     ∧ CustomPricing.SpotLabelValue rateCard ≠ "")
  ∧ GPUType (GetKey (DownloadPricingData newProvider).1 {[ "gpu" := "t4" ]})
    = default "" (({[ "gpu" := "t4" ]} : gmap string string)
                    !! CustomPricing.GpuLabel rateCard).
Proof.
  pose proof (NodePricing_after_rebuild newProvider rateCard {[ "gpu" := "t4" ]}
                eq_refl) as (Hspot & Hgpu & _).
  split; [exact Hspot|exact Hgpu].
Defined.

(** *** The closure of an update *)

Section ClosureFacts.

Variable Title : string → string.
Variable SetCustomPricingField :
  CustomPricing.t → string → string → CustomPricing.t * error.

(** X15: the closure that applies an update stops at the first entry it
    cannot apply and undoes nothing: the record it was handed keeps the
    fields set by the entries visited before, and the entries after are not
    looked at.  The error of an entry that is not a string names its key,
    capitalised. *)
Theorem applyEntries_stops_at_first_failure
    (before after : list (string * jvalue)) (k : string) (v : jvalue)
    (c c1 : CustomPricing.t) :
  applyEntries Title SetCustomPricingField before c = (c1, None) →
  (∀ vstr c2 e,
     v = JString vstr →
     SetCustomPricingField c1 (Title k) vstr = (c2, Some e) →
     applyEntries Title SetCustomPricingField (before ++ (k, v) :: after) c
     = (c2, Some e))
  ∧ ((∀ vstr, v ≠ JString vstr) →
     applyEntries Title SetCustomPricingField (before ++ (k, v) :: after) c
     = (c1, Some ("type error while updating config for " +:+ Title k))).
Proof.
  intros Hbefore. rewrite applyEntries_app, Hbefore. split.
  - intros vstr c2 e -> Hset. simpl. by rewrite Hset.
  - intros Hv. simpl. destruct v as [vstr| | | | |]; try done.
    by destruct (Hv vstr).
Qed.

End ClosureFacts.

Lemma applyEntries_stops_at_first_failure_witness :
  applyEntries asciiTitle setNodeRate
    [("cPU", JString "0.06"); ("colour", JString "blue"); ("RAM", JString "0.02")]
    rateCard
  = ((setNodeRate rateCard "CPU" "0.06").1, Some "No such field: Colour in obj")
  ∧ applyEntries asciiTitle setNodeRate
      [("cPU", JString "0.06"); ("rAM", JNumber 1); ("GPU", JString "0.95")]
      rateCard
    = ((setNodeRate rateCard "CPU" "0.06").1,
       Some "type error while updating config for RAM").
Proof.
  split.
  - apply (proj1 (applyEntries_stops_at_first_failure asciiTitle setNodeRate
                    [("cPU", JString "0.06")] [("RAM", JString "0.02")] "colour"
                    (JString "blue") rateCard (setNodeRate rateCard "CPU" "0.06").1
                    eq_refl) "blue");
      reflexivity.
  - apply (proj2 (applyEntries_stops_at_first_failure asciiTitle setNodeRate
                    [("cPU", JString "0.06")] [("GPU", JString "0.95")] "rAM"
                    (JNumber 1) rateCard (setNodeRate rateCard "CPU" "0.06").1
                    eq_refl)).
    intros vstr. discriminate.
Defined.

Example applyEntries_keeps_earlier_edits :
  ∃ c', applyEntries asciiTitle setNodeRate
          [("cPU", JString "0.06"); ("colour", JString "blue"); ("RAM", JString "0.02")]
          rateCard
        = (c', Some "No such field: Colour in obj")
        ∧ CustomPricing.CPU c' = "0.06" ∧ CustomPricing.RAM c' = "0.01".
Proof. eexists. vm_compute. done. Qed.

(** *** The provider's own cluster *)




Example ClusterInfo_of_rateCard :
  ClusterInfo "c-9" newProvider
  = Ok {[ "name" := "onprem"; "provider" := "custom"; "id" := "c-9" ]}.
Proof. vm_compute. reflexivity. Qed.

(** *** Network prices and discounts *)

Section NetworkFacts.

Variable ParseFloat : string → float * error.

(** X18: [NetworkPricing] returns prices exactly when the three egress rates
    parse: then they are the three parsed numbers; and the error returned
    otherwise is that of the first field, in the order zone, region,
    internet, that fails to parse. *)
Theorem NetworkPricing_parses_all_or_fails (cp : CustomProvider.t)
    (cpricing : CustomPricing.t) :
  GetCustomPricingData (CustomProvider.Config cp) = Ok cpricing →
  let znec := ParseFloat (CustomPricing.ZoneNetworkEgress cpricing) in
  let rnec := ParseFloat (CustomPricing.RegionNetworkEgress cpricing) in
  let inec := ParseFloat (CustomPricing.InternetNetworkEgress cpricing) in
  ((∃ net, NetworkPricing ParseFloat cp = Ok net) ↔
     znec.2 = None ∧ rnec.2 = None ∧ inec.2 = None)
  ∧ (znec.2 = None → rnec.2 = None → inec.2 = None →
     NetworkPricing ParseFloat cp
     = Ok {| ZoneNetworkEgressCost := znec.1;
             RegionNetworkEgressCost := rnec.1;
             InternetNetworkEgressCost := inec.1 |})
  ∧ (∀ e, znec.2 = Some e → NetworkPricing ParseFloat cp = Error e)
  ∧ (∀ e, znec.2 = None → rnec.2 = Some e →
          NetworkPricing ParseFloat cp = Error e)
  ∧ (∀ e, znec.2 = None → rnec.2 = None → inec.2 = Some e →
          NetworkPricing ParseFloat cp = Error e).
Proof.
  intros Hcfg znec rnec inec. unfold NetworkPricing. rewrite Hcfg.
  fold znec rnec inec.
  destruct znec as [z [ez|]], rnec as [r [er|]], inec as [i [ei|]]; simpl;
    (split; [split; [intros [net Hnet]; by try discriminate Hnet
                    |intros (? & ? & ?); simplify_eq; eexists; done]|]);
    repeat split; try done; by intros; simplify_eq.
Qed.

End NetworkFacts.

(** A provider whose internet egress rate is not a number. *)
Definition unpricedInternet : CustomProvider.t :=
  {| CustomProvider.Pricing := None;
     CustomProvider.SpotLabel := ""; CustomProvider.SpotLabelValue := "";
     CustomProvider.GPULabel := ""; CustomProvider.GPULabelValue := "";
     CustomProvider.Config :=
       {| customPricing := Some (withInternetEgress "n/a" rateCard) |} |}.

Lemma NetworkPricing_parses_all_or_fails_witness :
  NetworkPricing parseRate newProvider
  = Ok {| ZoneNetworkEgressCost := 0.01;
          RegionNetworkEgressCost := 0.01;
          InternetNetworkEgressCost := 0.12 |}
  ∧ NetworkPricing parseRate unpricedInternet = Error (syntaxError "n/a").
Proof.
  split.
  - apply (NetworkPricing_parses_all_or_fails parseRate newProvider rateCard
             eq_refl); reflexivity.
  - apply (NetworkPricing_parses_all_or_fails parseRate unpricedInternet
             (withInternetEgress "n/a" rateCard) eq_refl); reflexivity.
Defined.

Lemma SFmul_comm (x y : spec_float) : SF64mul x y = SF64mul y x.
Proof.
  unfold SF64mul, SFmul.
  destruct x as [sx|sx| |sx mx ex], y as [sy|sy| |sy my ey];
    try done; try (by rewrite xorb_comm).
  by rewrite xorb_comm, Pos.mul_comm, Z.add_comm.
Qed.

Lemma float_mul_comm (x y : float) : (x * y)%float = (y * x)%float.
Proof. apply Prim2SF_inj. rewrite !mul_spec. apply SFmul_comm. Qed.

(** X19: the combined discount does not depend on the instance type or on
    the node being preemptible, and does not change when the default and the
    negotiated discount are exchanged. *)
Theorem CombinedDiscountForNode_symmetric (instanceType instanceType' : string)
    (isPreemptible isPreemptible' : bool) (defaultDiscount negotiatedDiscount : float) :
  CombinedDiscountForNode instanceType isPreemptible defaultDiscount negotiatedDiscount
  = CombinedDiscountForNode instanceType' isPreemptible' negotiatedDiscount defaultDiscount.
Proof. unfold CombinedDiscountForNode. by rewrite float_mul_comm. Qed.

End CloudFacts.

(** ** The helpers of the Kubernetes metrics *)

Module MetricsFacts.
Import Metrics.

Section K8sFacts.

Variables ResourceCPU ResourceStorage ResourceEphemeralStorage : string.
Variables ResourceMemory ResourcePods : string.
Variables ResourceHugePagesPrefix ResourceAttachableVolumesPrefix : string.
Variables DefaultResourceRequestsPrefix ResourceDefaultNamespacePrefix : string.
Variable BetaStorageClassAnnotation : string.
Variable IsQualifiedName : string → list string.
Variable SanitizeLabelName : string → string.

(** X20: a resource name is an extended one exactly when it has a '/', does
    not contain the default namespace prefix, does not start with the
    requests prefix, and is a qualified name once that prefix is put before
    it.  A name without '/' is never one. *)
Theorem isExtendedResourceName_qualified (name : string) :
  (isExtendedResourceName DefaultResourceRequestsPrefix
     ResourceDefaultNamespacePrefix IsQualifiedName name = true ↔
   Strings.Contains name "/" = true
   ∧ ContainsString name ResourceDefaultNamespacePrefix = false
   ∧ HasPrefix name DefaultResourceRequestsPrefix = false
   ∧ IsQualifiedName (DefaultResourceRequestsPrefix +:+ name) = [])
  ∧ (Strings.Contains name "/" = false →
     isExtendedResourceName DefaultResourceRequestsPrefix
       ResourceDefaultNamespacePrefix IsQualifiedName name = false).
Proof.
  unfold isExtendedResourceName, isNativeResource, isPrefixedNativeResource.
  destruct (Strings.Contains name "/"),
    (ContainsString name ResourceDefaultNamespacePrefix),
    (HasPrefix name DefaultResourceRequestsPrefix),
    (IsQualifiedName (DefaultResourceRequestsPrefix +:+ name)); simpl;
    intuition congruence.
Qed.

(** X21: a resource name without '/' that is none of cpu, storage, ephemeral
    storage, memory and pods, and starts with neither the huge-pages nor
    the attachable-volumes prefix, is given up: the resource and the unit
    are empty and the value is 0, whatever the quantity. *)
Theorem toResourceUnitValue_gives_up_unqualified (name : string)
    (quantity : Quantity) :
  Strings.Contains name "/" = false →
  name ≠ ResourceCPU → name ≠ ResourceStorage →
  name ≠ ResourceEphemeralStorage → name ≠ ResourceMemory →
  name ≠ ResourcePods →
  HasPrefix name ResourceHugePagesPrefix = false →
  HasPrefix name ResourceAttachableVolumesPrefix = false →
  toResourceUnitValue ResourceCPU ResourceStorage ResourceEphemeralStorage
    ResourceMemory ResourcePods ResourceHugePagesPrefix
    ResourceAttachableVolumesPrefix DefaultResourceRequestsPrefix
    ResourceDefaultNamespacePrefix IsQualifiedName SanitizeLabelName
    name quantity
  = ("", "", 0%float).
Proof.
  intros Hslash Hcpu Hst Heph Hmem Hpods Hhuge Hatt.
  unfold toResourceUnitValue, isHugePageResourceName,
    isAttachableVolumeResourceName.
  rewrite (decide_False (P := name = ResourceCPU)) by done.
  rewrite decide_False by (by intros [?|[?|?]]).
  rewrite (decide_False (P := name = ResourcePods)) by done.
  rewrite Hhuge, Hatt. simpl.
  by rewrite (proj2 (isExtendedResourceName_qualified name) Hslash).
Qed.

(** X22: the class of a claim is its beta annotation when it has one,
    whatever its named class; else its named class; else "<none>".  So the
    class is the empty string only when the annotation, or without
    annotation the named class, is the empty string itself: a claim that
    asks for no class gets "<none>". *)
Theorem getPersistentVolumeClaimClass_never_empty_by_default
    (claim : PersistentVolumeClaim) :
  (∀ class, Annotations claim !! BetaStorageClassAnnotation = Some class →
            getPersistentVolumeClaimClass BetaStorageClassAnnotation claim = class)
  ∧ (Annotations claim !! BetaStorageClassAnnotation = None →
     StorageClassName claim = None →
     getPersistentVolumeClaimClass BetaStorageClassAnnotation claim = "<none>")
  ∧ (getPersistentVolumeClaimClass BetaStorageClassAnnotation claim = "" →
     Annotations claim !! BetaStorageClassAnnotation = Some ""
     ∨ (Annotations claim !! BetaStorageClassAnnotation = None
        ∧ StorageClassName claim = Some "")).
Proof.
  unfold getPersistentVolumeClaimClass.
  destruct (Annotations claim !! BetaStorageClassAnnotation) as [a|],
    (StorageClassName claim) as [c|];
    (split; [intros class [= <-]; done || idtac | split; [intros; done || idtac|]]);
    try done; intros ->; auto.
Qed.

End K8sFacts.

(** The values of the constants in [k8s.io/api/core/v1]; every name is taken
    for a qualified one. *)
Definition k8sUnit (name : string) (quantity : Quantity) : string * string * float :=
  toResourceUnitValue "cpu" "storage" "ephemeral-storage" "memory" "pods"
    "hugepages-" "attachable-volumes-" "requests." "kubernetes.io/"
    (λ _, []) (λ s, s) name quantity.

Lemma toResourceUnitValue_gives_up_unqualified_witness :
  k8sUnit "gpu" (mkQuantity 2000 2) = ("", "", 0%float).
Proof.
  apply (toResourceUnitValue_gives_up_unqualified "cpu" "storage"
           "ephemeral-storage" "memory" "pods" "hugepages-" "attachable-volumes-"
           "requests." "kubernetes.io/" (λ _, []) (λ s, s) "gpu" (mkQuantity 2000 2));
    (reflexivity || discriminate).
Defined.

Example k8sUnit_cpu : k8sUnit "cpu" (mkQuantity 2500 3) = ("cpu", "core", 2.5%float).
Proof. vm_compute. reflexivity. Qed.

Example k8sUnit_memory :
  k8sUnit "memory" (mkQuantity 1024000 1024) = ("memory", "byte", 1024%float).
Proof. vm_compute. reflexivity. Qed.

Example k8sUnit_extended :
  k8sUnit "nvidia.com/gpu" (mkQuantity 2000 2) = ("nvidia.com/gpu", "integer", 2%float).
Proof. vm_compute. reflexivity. Qed.

Example k8sUnit_hugepages :
  k8sUnit "hugepages-2Mi" (mkQuantity 0 4096) = ("hugepages-2Mi", "byte", 4096%float).
Proof. vm_compute. reflexivity. Qed.

End MetricsFacts.
